(** * Shape and aliasing semantics of the EBEN multi-scale discriminators

    A shallow embedding of [discriminator.py]: the three PQMF-band
    discriminators ([DiscriminatorEBEN], dilation 1, 2, 3), the full-band
    [DiscriminatorMelGAN] and the ensemble [DiscriminatorMultiScales].

    Tensors are objects in a store.  A tensor has a shape (a list of
    integers) and a payload.  The payload is kept as an uninterpreted term
    that records which kernels produced it from which operands: the
    floating-point arithmetic of the kernels is not modelled, their
    functional dependencies are.  Module constructors allocate parameter
    tensors, forward passes allocate activations, and the in-place
    activation overwrites the tensor it is given.

    Signals are batched, [(batch, channels, time)]; the kernels reject
    tensors of any other rank.  The shape rules and the checks of the
    kernels and of the [nn.Conv1d] constructor are those of the PyTorch
    documentation. *)

From Stdlib Require Import ZArith QArith Lia.
From stdpp Require Import base numbers option list.

Local Open Scope Z_scope.

(** ** Errors and results *)

(** The exception classes the program can raise. *)
Inductive error : Type :=
  | ValueError      (* rejected constructor argument *)
  | RuntimeError    (* shape or dimension fault in a kernel *)
  | IndexError.     (* [embeddings[-1]] on an empty list *)

Inductive result (A : Type) : Type :=
  | Ok (a : A)
  | Err (e : error).
Arguments Ok {A} a.
Arguments Err {A} e.

#[global] Instance result_ret : MRet result := λ A a, Ok a.
#[global] Instance result_bind : MBind result := λ A B f r,
  match r with
  | Ok a => f a
  | Err e => Err e
  end.
#[global] Instance result_fmap : FMap result := λ A B f r,
  match r with
  | Ok a => Ok (f a)
  | Err e => Err e
  end.

(** ** Tensors *)

(** Arguments of [nn.Conv1d]; one-element tuples such as [(3,)] are their
    element. *)
Record Conv1dArgs : Type := {
  in_channels : Z;
  out_channels : Z;
  kernel_size : Z;
  stride : Z;
  padding : Z;
  dilation : Z;
  groups : Z
}.

(** Payload of a tensor, as the term that computes it. *)
Inductive Data : Type :=
  | Buffer (id : nat)                         (* contents fixed outside the model *)
  | Norm (w : Data)                           (* per-output-channel norm of a weight *)
  | WeightNorm (g v : Data)                   (* g * v / ||v|| *)
  | PadReflect (p : Z) (x : Data)             (* F.pad(x, (p, p), 'reflect') *)
  | Convolve (a : Conv1dArgs) (w b x : Data)  (* F.conv1d *)
  | Leaky (slope : Q) (x : Data).             (* F.leaky_relu *)

Record Tensor : Type := {
  shape : list Z;
  data : Data
}.

(** ** Functional kernels ([torch.nn.functional]) *)

(** Output shape of reflection padding by [p] on both sides of the last
    dimension of a batched input [(N, C, W)].  The kernel rejects empty
    channel or time dimensions and a padding that is not smaller than the
    input width. *)
Definition reflection_pad1d_shape (p : Z) (s : list Z) : result (list Z) :=
  match s with
  | [n; c; w] =>
      if (c <=? 0) || (w <=? 0) then Err RuntimeError
      else if w <=? p then Err RuntimeError
      else if w + 2 * p <? 1 then Err RuntimeError
      else Ok [n; c; w + 2 * p]
  | _ => Err RuntimeError
  end.

(** Output length of a 1-D convolution on an input of length [l]:
    [floor((l + 2*padding - dilation*(kernel_size-1) - 1) / stride) + 1]. *)
Definition conv_length (a : Conv1dArgs) (l : Z) : Z :=
  (l + 2 * padding a - dilation a * (kernel_size a - 1) - 1) / stride a + 1.

(** Output shape of a 1-D convolution on a batched input [(N, C, L)].
    The kernel rejects a channel count different from [in_channels],
    non-positive stride or dilation, negative padding, and a padded input
    shorter than the dilated kernel. *)
Definition conv1d_shape (a : Conv1dArgs) (s : list Z) : result (list Z) :=
  match s with
  | [n; c; l] =>
      if negb (c =? in_channels a) then Err RuntimeError
      else if stride a <=? 0 then Err RuntimeError
      else if padding a <? 0 then Err RuntimeError
      else if dilation a <=? 0 then Err RuntimeError
      else if l + 2 * padding a <? dilation a * (kernel_size a - 1) + 1
      then Err RuntimeError
      else Ok [n; out_channels a; conv_length a l]
  | _ => Err RuntimeError
  end.

Definition reflection_pad1d (p : Z) (x : Tensor) : result Tensor :=
  s ← reflection_pad1d_shape p (shape x);
  mret {| shape := s; data := PadReflect p (data x) |}.

Definition conv1d (a : Conv1dArgs) (w b x : Tensor) : result Tensor :=
  s ← conv1d_shape a (shape x);
  mret {| shape := s; data := Convolve a (data w) (data b) (data x) |}.

Definition leaky_relu (negative_slope : Q) (x : Tensor) : Tensor :=
  {| shape := shape x; data := Leaky negative_slope (data x) |}.

(** The weight a weight-normalised convolution uses: recomputed from the
    magnitude [g] and the direction [v] before every forward call. *)
Definition compute_weight (g v : Tensor) : Tensor :=
  {| shape := shape v; data := WeightNorm (data g) (data v) |}.

(** ** The store *)

(** A tensor object is identified by its position in the store.  Objects
    are never freed. *)
Abbreviation loc := nat (only parsing).
Abbreviation heap := (list Tensor) (only parsing).

(** Computations that read and update the store and may raise. *)
Definition M (A : Type) : Type := heap → result (A * heap).

#[global] Instance M_ret : MRet M := λ A a h, Ok (a, h).
#[global] Instance M_bind : MBind M := λ A B f m h,
  match m h with
  | Ok (a, h') => f a h'
  | Err e => Err e
  end.

Definition raise {A} (e : error) : M A := λ _, Err e.

Definition lift {A} (r : result A) : M A := λ h,
  match r with
  | Ok a => Ok (a, h)
  | Err e => Err e
  end.

Definition alloc (t : Tensor) : M loc := λ h, Ok (length h, h ++ [t]).

Definition read (l : loc) : M Tensor := λ h,
  match h !! l with
  | Some t => Ok (t, h)
  | None => Err RuntimeError
  end.

Definition write (l : loc) (t : Tensor) : M unit := λ h, Ok (tt, <[l := t]> h).

(** A new tensor of shape [s] whose contents come from outside the model
    (the random initialiser, the caller's data). *)
Definition fresh (s : list Z) : M loc := λ h,
  Ok (length h, h ++ [{| shape := s; data := Buffer (length h) |}]).

Fixpoint mapM {A B} (f : A → M B) (l : list A) : M (list B) :=
  match l with
  | [] => mret []
  | a :: l' => b ← f a; bs ← mapM f l'; mret (b :: bs)
  end.

(** ** Modules ([torch.nn]) *)

(** The parameters of a weight-normalised convolution. *)
Record ConvParams : Type := {
  weight_g : loc;
  weight_v : loc;
  bias : loc
}.

(** The layers the program uses.  [P] is what a convolution holds for its
    parameters: [unit] in a constructor expression that has not run yet,
    [ConvParams] in a constructed module. *)
Inductive Layer (P : Type) : Type :=
  | ReflectionPad1d (pad : Z)
  | Conv1d (args : Conv1dArgs) (params : P)
  | LeakyReLU (negative_slope : Q) (inplace : bool).
Arguments ReflectionPad1d {P} pad.
Arguments Conv1d {P} args params.
Arguments LeakyReLU {P} negative_slope inplace.

(** An entry of a [ModuleList]: an [nn.Sequential] of layers or one layer. *)
Inductive Module (P : Type) : Type :=
  | Sequential (layers : list (Layer P))
  | Single (layer : Layer P).
Arguments Sequential {P} layers.
Arguments Single {P} layer.

(** [nn.Conv1d(...)]: checks [groups] against the channel counts, then
    creates the weight [(out, in // groups, k)] and the bias [(out)], with
    contents from the random initialiser. *)
Definition Conv1d_init (a : Conv1dArgs) : M (loc * loc) :=
  if groups a <=? 0 then raise ValueError
  else if negb (in_channels a mod groups a =? 0) then raise ValueError
  else if negb (out_channels a mod groups a =? 0) then raise ValueError
  else
    w ← fresh [out_channels a; in_channels a / groups a; kernel_size a];
    b ← fresh [out_channels a];
    mret (w, b).

(** [nn.utils.weight_norm(conv)]: the weight is replaced by the parameters
    [weight_g] (its norm, a new tensor) and [weight_v] (its storage). *)
Definition weight_norm (conv : loc * loc) : M ConvParams :=
  let '(w, b) := conv in
  tw ← read w;
  g ← alloc {| shape := [default 0 (shape tw !! 0%nat); 1; 1];
               data := Norm (data tw) |};
  mret {| weight_g := g; weight_v := w; bias := b |}.

Definition normalized_conv1d (a : Conv1dArgs) : M ConvParams :=
  conv ← Conv1d_init a;
  weight_norm conv.

(** Running the constructor expression of a layer, of a list entry. *)
Definition Layer_init (l : Layer unit) : M (Layer ConvParams) :=
  match l with
  | ReflectionPad1d p => mret (ReflectionPad1d p)
  | Conv1d a _ => ps ← normalized_conv1d a; mret (Conv1d a ps)
  | LeakyReLU s i => mret (LeakyReLU s i)
  end.

Definition Module_init (m : Module unit) : M (Module ConvParams) :=
  match m with
  | Sequential ls => ls' ← mapM Layer_init ls; mret (Sequential ls')
  | Single l => l' ← Layer_init l; mret (Single l')
  end.

(** Forward call of a layer on the tensor object [x]; returns the object
    that holds the output. *)
Definition Layer_forward (l : Layer ConvParams) (x : loc) : M loc :=
  match l with
  | ReflectionPad1d p =>
      tx ← read x;
      ty ← lift (reflection_pad1d p tx);
      alloc ty
  | Conv1d a ps =>
      tx ← read x;
      (* the hook of [weight_norm] stores the recomputed weight *)
      g ← read (weight_g ps);
      v ← read (weight_v ps);
      w ← alloc (compute_weight g v);
      b ← read (bias ps);
      ty ← lift (conv1d a (compute_weight g v) b tx);
      alloc ty
  | LeakyReLU s inplace =>
      tx ← read x;
      if inplace then _ ← write x (leaky_relu s tx); mret x
      else alloc (leaky_relu s tx)
  end.

Fixpoint Sequential_forward (ls : list (Layer ConvParams)) (x : loc) : M loc :=
  match ls with
  | [] => mret x
  | l :: ls' => y ← Layer_forward l x; Sequential_forward ls' y
  end.

Definition Module_forward (m : Module ConvParams) (x : loc) : M loc :=
  match m with
  | Sequential ls => Sequential_forward ls x
  | Single l => Layer_forward l x
  end.

(** ** The program *)

(** The loop shared by the two discriminators' [forward]:
    [for module in self.discriminator:
       embeddings.append(module(embeddings[-1]))]. *)
Fixpoint forward_loop (ms : list (Module ConvParams)) (embeddings : list loc)
  : M (list loc) :=
  match ms with
  | [] => mret embeddings
  | module :: ms' =>
      match last embeddings with
      | None => raise IndexError
      | Some x =>
          y ← Module_forward module x;
          forward_loop ms' (embeddings ++ [y])
      end
  end.

Module DiscriminatorEBEN.

(** The list literal of [__init__]. *)
Definition layers (dilation q : Z) : list (Module unit) :=
  [ Sequential
      [ ReflectionPad1d 1;
        Conv1d {| in_channels := q; out_channels := 80; kernel_size := 3;
                  stride := 1; padding := 1; dilation := dilation;
                  groups := q |} ();
        LeakyReLU 0.2 true ];
    Sequential
      [ Conv1d {| in_channels := 80; out_channels := 160; kernel_size := 7;
                  stride := 2; padding := 3; dilation := dilation;
                  groups := q |} ();
        LeakyReLU 0.2 true ];
    Sequential
      [ Conv1d {| in_channels := 160; out_channels := 320; kernel_size := 7;
                  stride := 2; padding := 3; dilation := dilation;
                  groups := q |} ();
        LeakyReLU 0.2 true ];
    Sequential
      [ Conv1d {| in_channels := 320; out_channels := 480; kernel_size := 7;
                  stride := 2; padding := 3; dilation := dilation;
                  groups := q |} ();
        LeakyReLU 0.2 true ];
    Sequential
      [ Conv1d {| in_channels := 480; out_channels := 640; kernel_size := 7;
                  stride := 2; padding := 3; dilation := dilation;
                  groups := q |} ();
        LeakyReLU 0.2 true ];
    Sequential
      [ Conv1d {| in_channels := 640; out_channels := 960; kernel_size := 7;
                  stride := 2; padding := 3; dilation := dilation;
                  groups := q |} ();
        LeakyReLU 0.2 true ];
    Sequential
      [ Conv1d {| in_channels := 960; out_channels := 960; kernel_size := 5;
                  stride := 1; padding := 2; dilation := dilation;
                  groups := q |} ();
        LeakyReLU 0.2 true ];
    Single
      (Conv1d {| in_channels := 960; out_channels := 1; kernel_size := 3;
                 stride := 1; padding := 1; dilation := 1;
                 groups := 1 |} ()) ].

Record t : Type := {
  dilation : Z;
  discriminator : list (Module ConvParams)
}.

Definition init (dilation q : Z) : M t :=
  ms ← mapM Module_init (layers dilation q);
  mret {| dilation := dilation; discriminator := ms |}.

Definition forward (self : t) (bands : loc) : M (list loc) :=
  forward_loop (discriminator self) [bands].

End DiscriminatorEBEN.

Module DiscriminatorMelGAN.

Record t : Type := {
  discriminator : list (Module ConvParams)
}.

Definition layers : list (Module unit) :=
  [ Sequential
      [ ReflectionPad1d 7;
        Conv1d {| in_channels := 1; out_channels := 16; kernel_size := 15;
                  stride := 1; padding := 0; dilation := 1;
                  groups := 1 |} ();
        LeakyReLU 0.2 true ];
    Sequential
      [ Conv1d {| in_channels := 16; out_channels := 64; kernel_size := 41;
                  stride := 4; padding := 20; dilation := 1;
                  groups := 4 |} ();
        LeakyReLU 0.2 true ];
    Sequential
      [ Conv1d {| in_channels := 64; out_channels := 256; kernel_size := 41;
                  stride := 4; padding := 20; dilation := 1;
                  groups := 4 |} ();
        LeakyReLU 0.2 true ];
    Sequential
      [ Conv1d {| in_channels := 256; out_channels := 1024; kernel_size := 41;
                  stride := 4; padding := 20; dilation := 1;
                  groups := 4 |} ();
        LeakyReLU 0.2 true ];
    Sequential
      [ Conv1d {| in_channels := 1024; out_channels := 1024; kernel_size := 41;
                  stride := 4; padding := 20; dilation := 1;
                  groups := 4 |} ();
        LeakyReLU 0.2 true ];
    Sequential
      [ Conv1d {| in_channels := 1024; out_channels := 1024; kernel_size := 5;
                  stride := 1; padding := 2; dilation := 1;
                  groups := 1 |} ();
        LeakyReLU 0.2 true ];
    Single
      (Conv1d {| in_channels := 1024; out_channels := 1; kernel_size := 3;
                 stride := 1; padding := 1; dilation := 1;
                 groups := 1 |} ()) ].

Definition init : M t :=
  ms ← mapM Module_init layers;
  mret {| discriminator := ms |}.

Definition forward (self : t) (audio : loc) : M (list loc) :=
  forward_loop (discriminator self) [audio].

End DiscriminatorMelGAN.

Module DiscriminatorMultiScales.

Record t : Type := {
  q : Z;
  pqmf_discriminators : list DiscriminatorEBEN.t;
  melgan_discriminator : DiscriminatorMelGAN.t
}.

Definition init (q : Z) : M t :=
  pqmf ← mapM (λ dila, DiscriminatorEBEN.init dila q) [1; 2; 3];
  melgan ← DiscriminatorMelGAN.init;
  mret {| q := q; pqmf_discriminators := pqmf; melgan_discriminator := melgan |}.

(** [for dis in self.pqmf_discriminators: embeddings.append(dis(bands))] *)
Fixpoint pqmf_loop (ds : list DiscriminatorEBEN.t) (bands : loc)
    (embeddings : list (list loc)) : M (list (list loc)) :=
  match ds with
  | [] => mret embeddings
  | dis :: ds' =>
      e ← DiscriminatorEBEN.forward dis bands;
      pqmf_loop ds' bands (embeddings ++ [e])
  end.

Definition forward (self : t) (bands audio : loc) : M (list (list loc)) :=
  embeddings ← pqmf_loop (pqmf_discriminators self) bands [];
  e ← DiscriminatorMelGAN.forward (melgan_discriminator self) audio;
  mret (embeddings ++ [e]).

End DiscriminatorMultiScales.

(** ** Running the program *)

(** The tensors behind a list of objects. *)
Definition tensors (h : heap) (ls : list loc) : list (option Tensor) :=
  (λ l, h !! l) <$> ls.

Definition shapes (h : heap) (ls : list loc) : list (option (list Z)) :=
  (λ l, shape <$> h !! l) <$> ls.

(** Construct a band discriminator, create an input of shape [s], call it. *)
Definition run_band (dilation q : Z) (s : list Z) : M (list loc) :=
  dis ← DiscriminatorEBEN.init dilation q;
  bands ← fresh s;
  DiscriminatorEBEN.forward dis bands.

Definition run_ensemble (q : Z) (sb sa : list Z) : M (list (list loc)) :=
  dis ← DiscriminatorMultiScales.init q;
  bands ← fresh sb;
  audio ← fresh sa;
  DiscriminatorMultiScales.forward dis bands audio.

Definition shapes_of (c : M (list loc)) : result (list (option (list Z))) :=
  match c [] with
  | Ok (ls, h) => Ok (shapes h ls)
  | Err e => Err e
  end.

Definition shapes_of_all (c : M (list (list loc)))
  : result (list (list (option (list Z)))) :=
  match c [] with
  | Ok (ls, h) => Ok (shapes h <$> ls)
  | Err e => Err e
  end.

(** Construct a discriminator and create its input, without calling it. *)
Definition setup_band (dilation q : Z) (s : list Z)
  : M (DiscriminatorEBEN.t * loc) :=
  dis ← DiscriminatorEBEN.init dilation q;
  bands ← fresh s;
  mret (dis, bands).

Definition setup_fullband (s : list Z) : M (DiscriminatorMelGAN.t * loc) :=
  dis ← DiscriminatorMelGAN.init;
  audio ← fresh s;
  mret (dis, audio).

Definition setup_ensemble (q : Z) (sb sa : list Z)
  : M (DiscriminatorMultiScales.t * loc * loc) :=
  dis ← DiscriminatorMultiScales.init q;
  bands ← fresh sb;
  audio ← fresh sa;
  mret (dis, bands, audio).

(** ** What a forward pass computes, without the store *)

(** The output shape of a layer, of a list entry, and the output shapes of
    the successive entries of a module list on an input of shape [s]. *)
Definition Layer_shape {P} (l : Layer P) (s : list Z) : result (list Z) :=
  match l with
  | ReflectionPad1d p => reflection_pad1d_shape p s
  | Conv1d a _ => conv1d_shape a s
  | LeakyReLU _ _ => Ok s
  end.

Fixpoint Sequential_shape {P} (ls : list (Layer P)) (s : list Z)
  : result (list Z) :=
  match ls with
  | [] => Ok s
  | l :: ls' => s' ← Layer_shape l s; Sequential_shape ls' s'
  end.

Definition Module_shape {P} (m : Module P) (s : list Z) : result (list Z) :=
  match m with
  | Sequential ls => Sequential_shape ls s
  | Single l => Layer_shape l s
  end.

Fixpoint stack_shapes {P} (ms : list (Module P)) (s : list Z)
  : result (list (list Z)) :=
  match ms with
  | [] => Ok []
  | m :: ms' =>
      s' ← Module_shape m s;
      ss ← stack_shapes ms' s';
      mret (s' :: ss)
  end.

(** The output tensor of a layer on the input tensor [x], with the
    parameters read from the store [h]. *)
Definition Layer_eval (h : heap) (l : Layer ConvParams) (x : Tensor)
  : result Tensor :=
  match l with
  | ReflectionPad1d p => reflection_pad1d p x
  | Conv1d a ps =>
      match h !! weight_g ps, h !! weight_v ps, h !! bias ps with
      | Some g, Some v, Some b => conv1d a (compute_weight g v) b x
      | _, _, _ => Err RuntimeError
      end
  | LeakyReLU s _ => Ok (leaky_relu s x)
  end.

Fixpoint Sequential_eval (h : heap) (ls : list (Layer ConvParams)) (x : Tensor)
  : result Tensor :=
  match ls with
  | [] => Ok x
  | l :: ls' => y ← Layer_eval h l x; Sequential_eval h ls' y
  end.

Definition Module_eval (h : heap) (m : Module ConvParams) (x : Tensor)
  : result Tensor :=
  match m with
  | Sequential ls => Sequential_eval h ls x
  | Single l => Layer_eval h l x
  end.

Fixpoint stack_eval (h : heap) (ms : list (Module ConvParams)) (x : Tensor)
  : result (list Tensor) :=
  match ms with
  | [] => Ok []
  | m :: ms' =>
      y ← Module_eval h m x;
      ys ← stack_eval h ms' y;
      mret (y :: ys)
  end.

(** Forgetting the parameters of a constructed module gives back its
    constructor expression. *)
Definition Layer_erase (l : Layer ConvParams) : Layer unit :=
  match l with
  | ReflectionPad1d p => ReflectionPad1d p
  | Conv1d a _ => Conv1d a ()
  | LeakyReLU s i => LeakyReLU s i
  end.

Definition Module_erase (m : Module ConvParams) : Module unit :=
  match m with
  | Sequential ls => Sequential (Layer_erase <$> ls)
  | Single l => Single (Layer_erase l)
  end.

(** The parameters of a module are objects of the store [h]. *)
Definition Layer_params_in (h : heap) (l : Layer ConvParams) : Prop :=
  match l with
  | Conv1d _ ps =>
      (weight_g ps < length h ∧ weight_v ps < length h ∧ bias ps < length h)%nat
  | _ => True
  end.

Definition Module_params_in (h : heap) (m : Module ConvParams) : Prop :=
  match m with
  | Sequential ls => Forall (Layer_params_in h) ls
  | Single l => Layer_params_in h l
  end.

(** A layer that overwrites its input. *)
Definition overwrites {P} (l : Layer P) : bool :=
  match l with
  | LeakyReLU _ true => true
  | _ => false
  end.

(** A list entry whose first layer creates a new tensor: every layer after
    it then works on a tensor created inside the entry. *)
Definition copies_first {P} (m : Module P) : bool :=
  match m with
  | Sequential [] => false
  | Sequential (l :: _) => negb (overwrites l)
  | Single l => negb (overwrites l)
  end.

(** The check of the [nn.Conv1d] constructor, on a layer, on a list entry. *)
Definition groups_ok (a : Conv1dArgs) : bool :=
  (0 <? groups a) && (in_channels a mod groups a =? 0)
  && (out_channels a mod groups a =? 0).

Definition Layer_ok {P} (l : Layer P) : bool :=
  match l with
  | Conv1d a _ => groups_ok a
  | _ => true
  end.

Definition Module_ok {P} (m : Module P) : bool :=
  match m with
  | Sequential ls => forallb Layer_ok ls
  | Single l => Layer_ok l
  end.

(** Rounding up: [ceil_div a b] is the least integer not below [a / b]. *)
Definition ceil_div (a b : Z) : Z := (a + b - 1) / b.

(** [l'] is the output length of the convolution [a] on an input of
    length [l] that it accepts. *)
Definition conv_maps (a : Conv1dArgs) (l l' : Z) : Prop :=
  (0 < stride a ∧ 0 ≤ padding a ∧ 0 < dilation a
   ∧ dilation a * (kernel_size a - 1) + 1 ≤ l + 2 * padding a)
  ∧ l' = conv_length a l.

(** ** Expected geometry *)

(** Channel counts and temporal lengths of the eight outputs of the band
    discriminator with dilation [d] on an input of temporal length [l]. *)
Definition band_channels : list Z := [80; 160; 320; 480; 640; 960; 960; 1].

Definition band_lengths (d l : Z) : list Z :=
  let l1 := l + 4 - 2 * d in
  let l2 := (l1 + 5 - 6 * d) / 2 + 1 in
  let l3 := (l2 + 5 - 6 * d) / 2 + 1 in
  let l4 := (l3 + 5 - 6 * d) / 2 + 1 in
  let l5 := (l4 + 5 - 6 * d) / 2 + 1 in
  let l6 := (l5 + 5 - 6 * d) / 2 + 1 in
  let l7 := l6 + 4 - 4 * d in
  [l1; l2; l3; l4; l5; l6; l7; l7].

Definition band_shapes (d n l : Z) : list (list Z) :=
  zip_with (λ c t, [n; c; t]) band_channels (band_lengths d l).

(** The same for the seven outputs of the full-band discriminator. *)
Definition fullband_channels : list Z := [16; 64; 256; 1024; 1024; 1024; 1].

Definition fullband_lengths (l : Z) : list Z :=
  let l2 := (l - 1) / 4 + 1 in
  let l3 := (l2 - 1) / 4 + 1 in
  let l4 := (l3 - 1) / 4 + 1 in
  let l5 := (l4 - 1) / 4 + 1 in
  [l; l2; l3; l4; l5; l5; l5].

Definition fullband_shapes (n l : Z) : list (list Z) :=
  zip_with (λ c t, [n; c; t]) fullband_channels (fullband_lengths l).

(** The inputs a band discriminator with dilation [d] and [q] bands
    accepts: batched, [q] channels, long enough for the reflection padding
    and for every dilated kernel down the stack. *)
Definition band_input (d q : Z) (s : list Z) : Prop :=
  ∃ n l, s = [n; q; l] ∧ 0 < q ∧ 1 ≤ d ∧ 2 ≤ l ∧ 316 * d - 317 ≤ l.

(** The inputs the full-band discriminator accepts. *)
Definition fullband_input (s : list Z) : Prop :=
  ∃ n l, s = [n; 1; l] ∧ 8 ≤ l.

(** ** Constructed discriminators *)

(** [dis] was constructed with dilation [d] for [q] bands at an earlier
    point of the store [h].  What its parameter tensors hold in [h] is
    left open: the optimiser changes it between calls. *)
Definition band_ready (d q : Z) (dis : DiscriminatorEBEN.t) (h : heap) : Prop :=
  ∃ h0 h1, DiscriminatorEBEN.init d q h0 = Ok (dis, h1)
           ∧ (length h1 ≤ length h)%nat.

Definition fullband_ready (dis : DiscriminatorMelGAN.t) (h : heap) : Prop :=
  ∃ h0 h1, DiscriminatorMelGAN.init h0 = Ok (dis, h1)
           ∧ (length h1 ≤ length h)%nat.

Definition ensemble_ready (q : Z) (dis : DiscriminatorMultiScales.t) (h : heap)
  : Prop :=
  ∃ h0 h1, DiscriminatorMultiScales.init q h0 = Ok (dis, h1)
           ∧ (length h1 ≤ length h)%nat.

(** Channel count and temporal length of a batched tensor. *)
Definition channels_of (t : Tensor) : option Z := shape t !! 1%nat.
Definition length_of (t : Tensor) : option Z := shape t !! 2%nat.

(** The band counts [q] that divide the channel counts of every grouped
    convolution of the band discriminator. *)
Definition divides_channels (q : Z) : Prop :=
  (q | 80) ∧ (q | 160) ∧ (q | 320) ∧ (q | 480) ∧ (q | 640) ∧ (q | 960).

(** Channel counts and temporal lengths of the tensors behind a list of
    objects. *)
Definition channels (h : heap) (ls : list loc) : list (option Z) :=
  (λ l, h !! l ≫= channels_of) <$> ls.

Definition lengths (h : heap) (ls : list loc) : list (option Z) :=
  (λ l, h !! l ≫= length_of) <$> ls.

(** [block_outputs ms x h ys h']: calling the entries of [ms] one after
    the other, the first on the object [x] in the store [h] and each next
    one on the output of the one before, returns the objects [ys] and
    leaves the store [h']. *)
Inductive block_outputs :
    list (Module ConvParams) → loc → heap → list loc → heap → Prop :=
  | block_outputs_nil x h : block_outputs [] x h [] h
  | block_outputs_cons m ms x h y h1 ys h' :
      Module_forward m x h = Ok (y, h1) →
      block_outputs ms y h1 ys h' →
      block_outputs (m :: ms) x h (y :: ys) h'.

(** ** Parameters and activations *)

(** The parameter objects of a constructed layer, in the order in which
    the constructor creates them; of a list entry; of a module list. *)
Definition Layer_params (l : Layer ConvParams) : list loc :=
  match l with
  | Conv1d _ ps => [weight_v ps; bias ps; weight_g ps]
  | _ => []
  end.

Definition Module_params (m : Module ConvParams) : list loc :=
  match m with
  | Sequential ls => concat (Layer_params <$> ls)
  | Single l => Layer_params l
  end.

Definition stack_params (ms : list (Module ConvParams)) : list loc :=
  concat (Module_params <$> ms).





(** The slope of the activation a tensor went through last, if the last
    kernel applied to it was an activation. *)
Definition activation_of (t : Tensor) : option Q :=
  match data t with
  | Leaky s _ => Some s
  | _ => None
  end.

Definition Layer_activation {P} (l : Layer P) : option Q :=
  match l with
  | LeakyReLU s _ => Some s
  | _ => None
  end.

(** The layer a list entry ends with. *)
Definition final_layer {P} (m : Module P) : option (Layer P) :=
  match m with
  | Sequential ls => last ls
  | Single l => Some l
  end.

(** The activation slope of the output of a list entry, of the outputs of
    the successive entries of a module list, from that of the input.  An
    empty [nn.Sequential] returns its input. *)
Definition Module_activation {P} (m : Module P) (a : option Q) : option Q :=
  match final_layer m with
  | Some l => Layer_activation l
  | None => a
  end.

Fixpoint stack_activations {P} (ms : list (Module P)) (a : option Q)
  : list (option Q) :=
  match ms with
  | [] => []
  | m :: ms' =>
      let a' := Module_activation m a in
      a' :: stack_activations ms' a'
  end.

(** * Properties *)

(** ** The store monad *)

Ltac unfold_M :=
  unfold mbind, M_bind, mret, M_ret, raise, lift, alloc, read, write, fresh.

Lemma bind_Ok {A B} (m : M A) (f : A → M B) (h : heap) b h' :
  (m ≫= f) h = Ok (b, h') ↔ ∃ a h1, m h = Ok (a, h1) ∧ f a h1 = Ok (b, h').
Proof.
  unfold mbind, M_bind. destruct (m h) as [[a h1]|e]; split.
  - eauto.
  - intros (? & ? & [= <- <-] & ?); done.
  - done.
  - intros (? & ? & ? & ?); done.
Qed.

Lemma bind_run {A B} (m : M A) (f : A → M B) (h : heap) a h1 :
  m h = Ok (a, h1) → (m ≫= f) h = f a h1.
Proof. unfold mbind, M_bind. by intros ->. Qed.

Lemma bind_Err {A B} (m : M A) (f : A → M B) (h : heap) e :
  m h = Err e → (m ≫= f) h = Err e.
Proof. unfold mbind, M_bind. by intros ->. Qed.

Lemma read_Some (h : heap) l t : h !! l = Some t → read l h = Ok (t, h).
Proof. unfold read. by intros ->. Qed.

Lemma lookup_alloc (h : heap) (t : Tensor) : (h ++ [t]) !! length h = Some t.
Proof. by apply list_lookup_middle. Qed.

(** ** A layer, a list entry *)

Section forward.
Context (h : heap).

Lemma Layer_params_in_app n l :
  Layer_params_in h l → Layer_params_in (h ++ n) l.
Proof. destruct l; simpl; rewrite ?length_app; lia. Qed.

Lemma Layer_eval_app n l x :
  Layer_params_in h l → Layer_eval (h ++ n) l x = Layer_eval h l x.
Proof.
  destruct l as [|a ps|]; simpl; try done.
  intros (? & ? & ?). by rewrite !lookup_app_l.
Qed.

(** A layer that starts from an object of the store [h ++ n] leaves [h]
    as it is, provided it does not overwrite an object of [h]; its
    output is the tensor [Layer_eval] computes. *)
Lemma Layer_forward_spec n l x tx :
  Layer_params_in h l →
  (h ++ n) !! x = Some tx →
  (length h ≤ x)%nat ∨ overwrites l = false →
  match Layer_forward l x (h ++ n) with
  | Ok (y, h') =>
      ∃ n' ty, h' = h ++ n' ∧ h' !! y = Some ty ∧ (length h ≤ y)%nat
               ∧ Layer_eval h l tx = Ok ty
  | Err e => Layer_eval h l tx = Err e
  end.
Proof.
  intros Hps Hx Hfresh. destruct l as [p|a ps|s inplace]; simpl.
  - rewrite (bind_run _ _ _ _ _ (read_Some _ _ _ Hx)).
    destruct (reflection_pad1d p tx) as [ty|e] eqn:E; unfold_M; simpl; [|done].
    exists (n ++ [ty]), ty. rewrite (assoc_L (++)), lookup_alloc, length_app.
    repeat split; [lia].
  - destruct Hps as (Hg & Hv & Hb).
    destruct (lookup_lt_is_Some_2 h _ Hg) as [g Eg].
    destruct (lookup_lt_is_Some_2 h _ Hv) as [v Ev].
    destruct (lookup_lt_is_Some_2 h _ Hb) as [b Eb].
    rewrite Eg, Ev, Eb.
    rewrite (bind_run _ _ _ _ _ (read_Some _ _ _ Hx)).
    rewrite (bind_run _ _ (h ++ n) g (h ++ n)) by
      (apply read_Some; by rewrite lookup_app_l).
    rewrite (bind_run _ _ (h ++ n) v (h ++ n)) by
      (apply read_Some; by rewrite lookup_app_l).
    rewrite (bind_run _ _ _ _ _ eq_refl).
    rewrite (bind_run _ _ _ b ((h ++ n) ++ [compute_weight g v])) by
      (apply read_Some; rewrite <- !(assoc_L (++)); by rewrite lookup_app_l).
    destruct (conv1d a (compute_weight g v) b tx) as [ty|e] eqn:E;
      unfold_M; simpl; [|done].
    exists (n ++ [compute_weight g v; ty]), ty.
    rewrite lookup_alloc, !length_app.
    split; [by rewrite <- !(assoc_L (++))|]. repeat split; [lia].
  - rewrite (bind_run _ _ _ _ _ (read_Some _ _ _ Hx)).
    destruct inplace; unfold_M; simpl.
    + destruct Hfresh as [Hfresh|?]; [|done].
      exists (<[(x - length h)%nat := leaky_relu s tx]> n), (leaky_relu s tx).
      rewrite insert_app_r_alt by done.
      split; [done|]. split; [|done].
      rewrite <- insert_app_r_alt by done.
      apply list_lookup_insert_eq. by eapply lookup_lt_Some.
    + exists (n ++ [leaky_relu s tx]), (leaky_relu s tx).
      rewrite (assoc_L (++)), lookup_alloc, length_app.
      repeat split; [lia].
Qed.

Lemma Sequential_eval_app n ls x :
  Forall (Layer_params_in h) ls →
  Sequential_eval (h ++ n) ls x = Sequential_eval h ls x.
Proof.
  intros Hps. revert x. induction Hps as [|l ls Hl _ IH]; intros x; simpl; [done|].
  rewrite Layer_eval_app by done.
  destruct (Layer_eval h l x); simpl; [apply IH|done].
Qed.

Lemma Module_params_in_app n m :
  Module_params_in h m → Module_params_in (h ++ n) m.
Proof.
  destruct m as [ls|l]; simpl.
  - intros Hps. eapply Forall_impl; [done|].
    intros l. apply Layer_params_in_app.
  - apply Layer_params_in_app.
Qed.

Lemma Module_eval_app n m x :
  Module_params_in h m → Module_eval (h ++ n) m x = Module_eval h m x.
Proof.
  destruct m; simpl; [apply Sequential_eval_app | apply Layer_eval_app].
Qed.

Lemma stack_eval_app n ms x :
  Forall (Module_params_in h) ms →
  stack_eval (h ++ n) ms x = stack_eval h ms x.
Proof.
  intros Hps. revert x. induction Hps as [|m ms Hm _ IH]; intros x; simpl; [done|].
  rewrite Module_eval_app by done.
  destruct (Module_eval h m x); simpl; [by rewrite IH|done].
Qed.

(** The layers of an [nn.Sequential], started on an object created after
    [h] or with a first layer that does not overwrite. *)
Lemma Sequential_forward_spec ls : ∀ n x tx,
  Forall (Layer_params_in h) ls →
  (h ++ n) !! x = Some tx →
  (length h ≤ x)%nat ∨ (∃ l ls', ls = l :: ls' ∧ overwrites l = false) →
  match Sequential_forward ls x (h ++ n) with
  | Ok (y, h') =>
      ∃ n' ty, h' = h ++ n' ∧ h' !! y = Some ty ∧ (length h ≤ y)%nat
               ∧ Sequential_eval h ls tx = Ok ty
  | Err e => Sequential_eval h ls tx = Err e
  end.
Proof.
  induction ls as [|l ls IH]; intros n x tx Hps Hx Hfresh; simpl.
  - unfold_M. destruct Hfresh as [?|(? & ? & ? & _)]; [|done]. by exists n, tx.
  - apply Forall_cons in Hps as [Hl Hps].
    assert ((length h ≤ x)%nat ∨ overwrites l = false) as Hl'.
    { destruct Hfresh as [?|(? & ? & [= <- <-] & ?)]; auto. }
    pose proof (Layer_forward_spec n l x tx Hl Hx Hl') as Hspec.
    unfold mbind at 1, M_bind.
    destruct (Layer_forward l x (h ++ n)) as [[y h1]|e]; [|by rewrite Hspec].
    destruct Hspec as (n1 & ty & -> & Hy & Hle & ->). simpl.
    apply IH; auto.
Qed.

(** A list entry whose first layer copies leaves every object of [h] as
    it is and returns a new object. *)
Lemma Module_forward_spec m x tx :
  Module_params_in h m →
  copies_first m = true →
  h !! x = Some tx →
  match Module_forward m x h with
  | Ok (y, h') =>
      ∃ n ty, h' = h ++ n ∧ h' !! y = Some ty ∧ (length h ≤ y)%nat
              ∧ Module_eval h m tx = Ok ty
  | Err e => Module_eval h m tx = Err e
  end.
Proof.
  intros Hps Hc Hx. rewrite <- (app_nil_r h) in Hx.
  destruct m as [ls|l]; simpl in *.
  - pose proof (Sequential_forward_spec ls [] x tx Hps Hx) as Hspec.
    rewrite app_nil_r in Hspec. apply Hspec. right.
    destruct ls as [|l ls]; [done|]. exists l, ls. split; [done|].
    by apply negb_true_iff.
  - pose proof (Layer_forward_spec [] l x tx Hps Hx) as Hspec.
    rewrite app_nil_r in Hspec. apply Hspec. right. by apply negb_true_iff.
Qed.
End forward.

(** ** The loop over a module list *)

(** Starting in a store that extends [h0], where the parameters live, the
    loop only adds objects; the objects it appends to [embeddings] hold the
    tensors [stack_eval] computes from the tensor of [embeddings[-1]]. *)
Lemma forward_loop_spec h0 ms : ∀ n es x tx,
  Forall (Module_params_in h0) ms →
  forallb copies_first ms = true →
  last es = Some x →
  (h0 ++ n) !! x = Some tx →
  match forward_loop ms es (h0 ++ n) with
  | Ok (es', h') =>
      ∃ n' ys tys, es' = es ++ ys ∧ h' = (h0 ++ n) ++ n'
                   ∧ Forall2 (λ y ty, h' !! y = Some ty) ys tys
                   ∧ stack_eval h0 ms tx = Ok tys
  | Err e => stack_eval h0 ms tx = Err e
  end.
Proof.
  induction ms as [|m ms IH]; intros n es x tx Hps Hc Hlast Hx; simpl.
  - unfold_M. exists [], [], []. by rewrite !app_nil_r.
  - apply Forall_cons in Hps as [Hm Hps].
    apply andb_true_iff in Hc as [Hcm Hc].
    rewrite Hlast.
    pose proof (Module_forward_spec (h0 ++ n) m x tx
                  (Module_params_in_app h0 n m Hm) Hcm Hx) as Hspec.
    rewrite Module_eval_app in Hspec by done.
    unfold mbind at 1, M_bind.
    destruct (Module_forward m x (h0 ++ n)) as [[y h1]|e]; [|by rewrite Hspec].
    destruct Hspec as (n1 & ty & -> & Hy & Hle & ->). simpl.
    rewrite <- (assoc_L (++)) in Hy |- *.
    pose proof (IH (n ++ n1) (es ++ [y]) y ty Hps Hc (last_snoc _ _) Hy) as HIH.
    destruct (forward_loop ms (es ++ [y]) (h0 ++ n ++ n1)) as [[es' h']|e];
      [|by rewrite HIH].
    destruct HIH as (n2 & ys & tys & -> & -> & Hys & ->). simpl.
    exists (n1 ++ n2), (y :: ys), (ty :: tys).
    rewrite <- !(assoc_L (++)). split; [done|]. split; [done|]. split; [|done].
    constructor; [|by rewrite <- !(assoc_L (++)) in Hys].
    rewrite !(assoc_L (++)), lookup_app_l; [by rewrite <- !(assoc_L (++))|].
    rewrite <- !(assoc_L (++)). by eapply lookup_lt_Some.
Qed.

(** ** Shapes do not depend on the parameters *)

Lemma Layer_eval_shape h l x :
  Layer_params_in h l →
  shape <$> Layer_eval h l x = Layer_shape (Layer_erase l) (shape x).
Proof.
  destruct l as [p|a ps|s i]; simpl; intros Hps.
  - unfold reflection_pad1d. by destruct (reflection_pad1d_shape p (shape x)).
  - destruct Hps as (Hg & Hv & Hb).
    destruct (lookup_lt_is_Some_2 h _ Hg) as [g ->].
    destruct (lookup_lt_is_Some_2 h _ Hv) as [v ->].
    destruct (lookup_lt_is_Some_2 h _ Hb) as [b ->].
    unfold conv1d. by destruct (conv1d_shape a (shape x)).
  - done.
Qed.

Lemma Sequential_eval_shape h ls : ∀ x,
  Forall (Layer_params_in h) ls →
  shape <$> Sequential_eval h ls x
  = Sequential_shape (Layer_erase <$> ls) (shape x).
Proof.
  induction ls as [|l ls IH]; intros x Hps; simpl; [done|].
  apply Forall_cons in Hps as [Hl Hps].
  rewrite <- (Layer_eval_shape h) by done.
  destruct (Layer_eval h l x) as [y|e]; simpl; [by apply IH|done].
Qed.

Lemma Module_eval_shape h m x :
  Module_params_in h m →
  shape <$> Module_eval h m x = Module_shape (Module_erase m) (shape x).
Proof.
  destruct m; simpl; [apply Sequential_eval_shape | apply Layer_eval_shape].
Qed.

Lemma stack_eval_shapes h ms : ∀ x,
  Forall (Module_params_in h) ms →
  fmap (M:=list) shape <$> stack_eval h ms x
  = stack_shapes (Module_erase <$> ms) (shape x).
Proof.
  induction ms as [|m ms IH]; intros x Hps; simpl; [done|].
  apply Forall_cons in Hps as [Hm Hps].
  rewrite <- (Module_eval_shape h) by done.
  destruct (Module_eval h m x) as [y|e]; simpl; [|done].
  rewrite <- IH by done. by destruct (stack_eval h ms y).
Qed.

(** ** Construction *)

(** A constructor that either extends the store or raises [ValueError],
    mapped over a list. *)
Lemma mapM_spec {A B} (f : A → M B) (ok : A → bool)
    (R : heap → A → B → Prop) :
  (∀ a h, match f a h with
          | Ok (b, h') => ok a = true ∧ ∃ n, h' = h ++ n ∧ R h' a b
          | Err e => e = ValueError ∧ ok a = false
          end) →
  (∀ h n a b, R h a b → R (h ++ n) a b) →
  ∀ l h, match mapM f l h with
         | Ok (bs, h') =>
             forallb ok l = true ∧ ∃ n, h' = h ++ n ∧ Forall2 (R h') l bs
         | Err e => e = ValueError ∧ forallb ok l = false
         end.
Proof.
  intros Hf Hmono. induction l as [|a l IH]; intros h; simpl.
  - unfold_M. split; [done|]. exists []. by rewrite app_nil_r.
  - specialize (Hf a h). unfold mbind at 1, M_bind.
    destruct (f a h) as [[b h1]|e]; [|by destruct Hf as [-> ->]].
    destruct Hf as (-> & n1 & -> & Hb). simpl.
    specialize (IH (h ++ n1)). unfold mbind, M_bind.
    destruct (mapM f l (h ++ n1)) as [[bs h2]|e]; [|done].
    destruct IH as (-> & n2 & -> & Hbs). unfold_M. split; [done|].
    exists (n1 ++ n2). rewrite (assoc_L (++)). split; [done|].
    constructor; [by apply Hmono|done].
Qed.

Lemma Forall2_erased {A B} (f : B → A) (P : B → Prop) l l' :
  Forall2 (λ a b, f b = a ∧ P b) l l' → f <$> l' = l ∧ Forall P l'.
Proof.
  induction 1 as [|a b l l' [<- ?] _ [<- ?]]; simpl; [done|].
  split; [done|]. by constructor.
Qed.

Lemma normalized_conv1d_spec a h :
  normalized_conv1d a h =
    if groups_ok a then
      Ok ({| weight_g := S (S (length h)); weight_v := length h;
             bias := S (length h) |},
          h ++ [ {| shape := [out_channels a; in_channels a / groups a;
                              kernel_size a];
                    data := Buffer (length h) |};
                 {| shape := [out_channels a]; data := Buffer (S (length h)) |};
                 {| shape := [out_channels a; 1; 1];
                    data := Norm (Buffer (length h)) |} ])
    else Err ValueError.
Proof.
  unfold normalized_conv1d, Conv1d_init, groups_ok.
  rewrite (Z.leb_antisym 0), (Z.ltb_antisym (groups a)).
  destruct (0 <? groups a) eqn:E0; simpl.
  2:{ rewrite Z.ltb_ge in E0. apply Z.leb_le in E0. by rewrite E0. }
  apply Z.ltb_lt in E0. destruct (groups a <=? 0) eqn:E0'; [lia|]. simpl.
  destruct (in_channels a mod groups a =? 0); simpl; [|done].
  destruct (out_channels a mod groups a =? 0); simpl; [|done].
  unfold weight_norm. unfold_M. simpl.
  rewrite <- (assoc_L (++)); simpl.
  rewrite lookup_app_r, Nat.sub_diag by lia. simpl.
  rewrite <- (assoc_L (++)); simpl. rewrite !length_app; simpl.
  by replace (length h + 2)%nat with (S (S (length h))) by lia;
    replace (length h + 1)%nat with (S (length h)) by lia.
Qed.


Lemma Layer_init_spec (l : Layer unit) h :
  match Layer_init l h with
  | Ok (l', h') =>
      Layer_ok l = true
      ∧ ∃ n, h' = h ++ n ∧ Layer_erase l' = l ∧ Layer_params_in h' l'
  | Err e => e = ValueError ∧ Layer_ok l = false
  end.
Proof.
  destruct l as [p|a []|s i]; simpl.
  - unfold_M. split; [done|]. exists []. by rewrite app_nil_r.
  - unfold mbind, M_bind. rewrite normalized_conv1d_spec.
    destruct (groups_ok a); [|done]. unfold_M. split; [done|].
    eexists. split; [done|]. split; [done|]. simpl.
    rewrite length_app; simpl. lia.
  - unfold_M. split; [done|]. exists []. by rewrite app_nil_r.
Qed.

Lemma Module_init_spec (m : Module unit) h :
  match Module_init m h with
  | Ok (m', h') =>
      Module_ok m = true
      ∧ ∃ n, h' = h ++ n ∧ Module_erase m' = m ∧ Module_params_in h' m'
  | Err e => e = ValueError ∧ Module_ok m = false
  end.
Proof.
  destruct m as [ls|l]; simpl.
  - pose proof (mapM_spec Layer_init Layer_ok
      (λ h l l', Layer_erase l' = l ∧ Layer_params_in h l') Layer_init_spec) as H.
    specialize (H (λ h n a b '(conj E P), conj E (Layer_params_in_app h n b P)) ls h).
    unfold mbind, M_bind.
    destruct (mapM Layer_init ls h) as [[ls' h']|e]; [|done].
    destruct H as (-> & n & -> & Hls). unfold_M. split; [done|].
    exists n. split; [done|]. split.
    + simpl. f_equal. by apply (Forall2_erased _ _ _ _ Hls).
    + by apply (Forall2_erased _ _ _ _ Hls).
  - pose proof (Layer_init_spec l h) as H. unfold mbind, M_bind.
    destruct (Layer_init l h) as [[l' h']|e]; [|done].
    destruct H as (-> & n & -> & <- & ?). unfold_M. split; [done|].
    by exists n.
Qed.

(** Constructing the entries of a module list: it succeeds exactly when
    every convolution passes the [groups] check, only extends the store,
    and yields the entries of the list with their parameters in the store. *)
Lemma ModuleList_init_spec (ms : list (Module unit)) h :
  match mapM Module_init ms h with
  | Ok (ms', h') =>
      forallb Module_ok ms = true
      ∧ ∃ n, h' = h ++ n ∧ Module_erase <$> ms' = ms
             ∧ Forall (Module_params_in h') ms'
  | Err e => e = ValueError ∧ forallb Module_ok ms = false
  end.
Proof.
  pose proof (mapM_spec Module_init Module_ok
    (λ h m m', Module_erase m' = m ∧ Module_params_in h m') Module_init_spec) as H.
  specialize (H (λ h n a b '(conj E P), conj E (Module_params_in_app h n b P)) ms h).
  destruct (mapM Module_init ms h) as [[ms' h']|e]; [|done].
  destruct H as (-> & n & -> & Hms). split; [done|].
  exists n. split; [done|]. split.
  - by apply (Forall2_erased _ _ _ _ Hms).
  - by apply (Forall2_erased _ _ _ _ Hms).
Qed.

(** ** The kernels' shape rules *)

Lemma reflection_pad1d_shape_Ok p s s' :
  reflection_pad1d_shape p s = Ok s' ↔
  ∃ n c w, s = [n; c; w] ∧ s' = [n; c; w + 2 * p]
           ∧ 0 < c ∧ 0 < w ∧ p < w ∧ 1 ≤ w + 2 * p.
Proof.
  unfold reflection_pad1d_shape. split.
  - destruct s as [|n [|c [|w [|]]]]; try done.
    destruct (Z.leb_spec c 0), (Z.leb_spec w 0); simpl; try done.
    destruct (Z.leb_spec w p); [done|].
    destruct (Z.ltb_spec (w + 2 * p) 1); [done|].
    intros [= <-]. exists n, c, w. repeat split; lia.
  - intros (n & c & w & -> & -> & ? & ? & ? & ?).
    destruct (Z.leb_spec c 0), (Z.leb_spec w 0); simpl; try lia.
    destruct (Z.leb_spec w p); [lia|].
    destruct (Z.ltb_spec (w + 2 * p) 1); [lia|done].
Qed.

Lemma conv1d_shape_Ok a s s' :
  conv1d_shape a s = Ok s' ↔
  ∃ n l, s = [n; in_channels a; l] ∧ s' = [n; out_channels a; conv_length a l]
         ∧ 0 < stride a ∧ 0 ≤ padding a ∧ 0 < dilation a
         ∧ dilation a * (kernel_size a - 1) + 1 ≤ l + 2 * padding a.
Proof.
  unfold conv1d_shape. split.
  - destruct s as [|n [|c [|l [|]]]]; try done.
    destruct (Z.eqb_spec c (in_channels a)); simpl; [|done].
    destruct (Z.leb_spec (stride a) 0); [done|].
    destruct (Z.ltb_spec (padding a) 0); [done|].
    destruct (Z.leb_spec (dilation a) 0); [done|].
    destruct (Z.ltb_spec (l + 2 * padding a)
                (dilation a * (kernel_size a - 1) + 1)); [done|].
    intros [= <-]. subst c. exists n, l. repeat split; lia.
  - intros (n & l & -> & -> & ? & ? & ? & ?).
    rewrite Z.eqb_refl; simpl.
    destruct (Z.leb_spec (stride a) 0); [lia|].
    destruct (Z.ltb_spec (padding a) 0); [lia|].
    destruct (Z.leb_spec (dilation a) 0); [lia|].
    destruct (Z.ltb_spec (l + 2 * padding a)
                (dilation a * (kernel_size a - 1) + 1)); [lia|done].
Qed.

(** Every kernel raises [RuntimeError] when it rejects its input. *)
Lemma stack_shapes_Err {P} (ms : list (Module P)) : ∀ s e,
  stack_shapes ms s = Err e → e = RuntimeError.
Proof.
  assert (∀ (l : Layer P) s e, Layer_shape l s = Err e → e = RuntimeError) as Hl.
  { intros [p|a ps|sl i] s e; simpl; [| |done].
    - unfold reflection_pad1d_shape.
      repeat case_match; congruence.
    - unfold conv1d_shape. repeat case_match; congruence. }
  assert (∀ (ls : list (Layer P)) s e,
            Sequential_shape ls s = Err e → e = RuntimeError) as Hls.
  { induction ls as [|l ls IH]; intros s e; simpl; [done|].
    destruct (Layer_shape l s) eqn:E; simpl; [apply IH|].
    intros [= <-]. eauto. }
  induction ms as [|m ms IH]; intros s e; simpl; [done|].
  destruct (Module_shape m s) as [s'|e'] eqn:E; simpl.
  - destruct (stack_shapes ms s') eqn:E'; simpl; [done|].
    intros [= <-]. eauto.
  - intros [= <-]. destruct m; simpl in E; eauto.
Qed.

Lemma reflection_pad1d_shape_run p n c w :
  0 < c → 0 < w → p < w → 1 ≤ w + 2 * p →
  reflection_pad1d_shape p [n; c; w] = Ok [n; c; w + 2 * p].
Proof. intros. apply reflection_pad1d_shape_Ok. exists n, c, w. auto 10. Qed.

Lemma conv1d_shape_run a n c l :
  c = in_channels a →
  0 < stride a → 0 ≤ padding a → 0 < dilation a →
  dilation a * (kernel_size a - 1) + 1 ≤ l + 2 * padding a →
  conv1d_shape a [n; c; l] = Ok [n; out_channels a; conv_length a l].
Proof. intros ->. intros. apply conv1d_shape_Ok. exists n, l. auto 10. Qed.

(** ** Geometry of the two stacks *)

Lemma conv1d_shape_maps a s s' :
  conv1d_shape a s = Ok s' ↔
  ∃ n l l', s = [n; in_channels a; l] ∧ s' = [n; out_channels a; l']
            ∧ conv_maps a l l'.
Proof.
  rewrite conv1d_shape_Ok. unfold conv_maps. split.
  - intros (n & l & -> & -> & ?). exists n, l, (conv_length a l). auto.
  - intros (n & l & l' & -> & -> & ? & ->). exists n, l. tauto.
Qed.

Lemma conv1d_shape_step a n c l l' :
  c = in_channels a → conv_maps a l l' →
  conv1d_shape a [n; c; l] = Ok [n; out_channels a; l'].
Proof. intros -> ?. apply conv1d_shape_maps. by exists n, l, l'. Qed.

Ltac unfold_stack :=
  cbn [stack_shapes Module_shape Sequential_shape Layer_shape mbind result_bind
       mret result_ret].
Tactic Notation "unfold_stack" "in" hyp(H) :=
  cbn [stack_shapes Module_shape Sequential_shape Layer_shape mbind result_bind
       mret result_ret] in H.

(** Linear arithmetic with floor division, after the arguments of the
    convolutions have been read off. *)
Ltac arith :=
  unfold conv_maps, conv_length, ceil_div in *;
  cbn [in_channels out_channels kernel_size stride padding dilation groups] in *;
  Z.div_mod_to_equations; lia.

(** Reads a successful run of a stack backwards, one kernel at a time;
    every intermediate length becomes a variable. *)
Ltac invert_shapes H :=
  repeat match type of H with
  | context [reflection_pad1d_shape ?p ?s] =>
      let E := fresh "E" in
      destruct (reflection_pad1d_shape p s) eqn:E; unfold_stack in H; [|done];
      apply reflection_pad1d_shape_Ok in E as (? & ? & ? & ? & ? & ? & ? & ? & ?);
      simplify_eq
  | context [conv1d_shape ?a ?s] =>
      let E := fresh "E" in
      destruct (conv1d_shape a s) eqn:E; unfold_stack in H; [|done];
      apply conv1d_shape_maps in E as (? & ? & ? & E & ? & ?);
      cbn [in_channels out_channels] in *; simplify_eq
  end;
  unfold mret, result_ret in H; simplify_eq.

Lemma band_shapes_intro d n l l1 l2 l3 l4 l5 l6 l7 l8 :
  l1 = l + 4 - 2 * d →
  l2 = (l1 + 5 - 6 * d) / 2 + 1 →
  l3 = (l2 + 5 - 6 * d) / 2 + 1 →
  l4 = (l3 + 5 - 6 * d) / 2 + 1 →
  l5 = (l4 + 5 - 6 * d) / 2 + 1 →
  l6 = (l5 + 5 - 6 * d) / 2 + 1 →
  l7 = l6 + 4 - 4 * d →
  l8 = l7 →
  [[n; 80; l1]; [n; 160; l2]; [n; 320; l3]; [n; 480; l4]; [n; 640; l5];
   [n; 960; l6]; [n; 960; l7]; [n; 1; l8]] = band_shapes d n l.
Proof. by intros -> -> -> -> -> -> -> ->. Qed.

Lemma band_stack_run d q n l l1 l2 l3 l4 l5 l6 l7 l8 :
  0 < q → 1 ≤ d → 2 ≤ l → 316 * d - 317 ≤ l →
  l1 = l + 4 - 2 * d →
  l2 = (l1 + 5 - 6 * d) / 2 + 1 →
  l3 = (l2 + 5 - 6 * d) / 2 + 1 →
  l4 = (l3 + 5 - 6 * d) / 2 + 1 →
  l5 = (l4 + 5 - 6 * d) / 2 + 1 →
  l6 = (l5 + 5 - 6 * d) / 2 + 1 →
  l7 = l6 + 4 - 4 * d →
  l8 = l7 →
  stack_shapes (DiscriminatorEBEN.layers d q) [n; q; l]
  = Ok [[n; 80; l1]; [n; 160; l2]; [n; 320; l3]; [n; 480; l4]; [n; 640; l5];
        [n; 960; l6]; [n; 960; l7]; [n; 1; l8]].
Proof.
  intros. unfold DiscriminatorEBEN.layers. unfold_stack.
  rewrite reflection_pad1d_shape_run by lia. unfold_stack.
  rewrite (conv1d_shape_step _ n q (l + 2 * 1) l1) by (done || arith).
  unfold_stack.
  rewrite (conv1d_shape_step _ n _ l1 l2) by (done || arith). unfold_stack.
  rewrite (conv1d_shape_step _ n _ l2 l3) by (done || arith). unfold_stack.
  rewrite (conv1d_shape_step _ n _ l3 l4) by (done || arith). unfold_stack.
  rewrite (conv1d_shape_step _ n _ l4 l5) by (done || arith). unfold_stack.
  rewrite (conv1d_shape_step _ n _ l5 l6) by (done || arith). unfold_stack.
  rewrite (conv1d_shape_step _ n _ l6 l7) by (done || arith). unfold_stack.
  rewrite (conv1d_shape_step _ n _ l7 l8) by (done || arith). unfold_stack.
  done.
Qed.

(** The band stack accepts exactly the inputs of [band_input] and maps
    them to [band_shapes]. *)
Lemma band_stack_shapes d q s ss :
  stack_shapes (DiscriminatorEBEN.layers d q) s = Ok ss ↔
  ∃ n l, s = [n; q; l] ∧ 0 < q ∧ 1 ≤ d ∧ 2 ≤ l ∧ 316 * d - 317 ≤ l
         ∧ ss = band_shapes d n l.
Proof.
  split.
  - intros H. unfold DiscriminatorEBEN.layers in H. unfold_stack in H.
    invert_shapes H.
    eexists _, _. split; [done|].
    repeat (split; [arith|]).
    apply band_shapes_intro; arith.
  - intros (n & l & -> & ? & ? & ? & ? & ->).
    unfold band_shapes, band_lengths, band_channels. cbn [zip_with].
    by apply band_stack_run.
Qed.

Lemma band_final_length d l :
  last (band_lengths d l) = Some (ceil_div (l + 4 * d - 2) 32 - 10 * (d - 1)).
Proof.
  unfold band_lengths. cbn [last]. f_equal.
  remember (l + 4 - 2 * d) as l1 eqn:E1.
  remember ((l1 + 5 - 6 * d) / 2 + 1) as l2 eqn:E2.
  remember ((l2 + 5 - 6 * d) / 2 + 1) as l3 eqn:E3.
  remember ((l3 + 5 - 6 * d) / 2 + 1) as l4 eqn:E4.
  remember ((l4 + 5 - 6 * d) / 2 + 1) as l5 eqn:E5.
  remember ((l5 + 5 - 6 * d) / 2 + 1) as l6 eqn:E6.
  arith.
Qed.

Lemma fullband_shapes_intro n l l1 l2 l3 l4 l5 l6 l7 :
  l1 = l →
  l2 = (l1 - 1) / 4 + 1 →
  l3 = (l2 - 1) / 4 + 1 →
  l4 = (l3 - 1) / 4 + 1 →
  l5 = (l4 - 1) / 4 + 1 →
  l6 = l5 →
  l7 = l6 →
  [[n; 16; l1]; [n; 64; l2]; [n; 256; l3]; [n; 1024; l4]; [n; 1024; l5];
   [n; 1024; l6]; [n; 1; l7]] = fullband_shapes n l.
Proof. by intros -> -> -> -> -> -> ->. Qed.

Lemma fullband_stack_run n l l1 l2 l3 l4 l5 l6 l7 :
  8 ≤ l →
  l1 = l →
  l2 = (l1 - 1) / 4 + 1 →
  l3 = (l2 - 1) / 4 + 1 →
  l4 = (l3 - 1) / 4 + 1 →
  l5 = (l4 - 1) / 4 + 1 →
  l6 = l5 →
  l7 = l6 →
  stack_shapes DiscriminatorMelGAN.layers [n; 1; l]
  = Ok [[n; 16; l1]; [n; 64; l2]; [n; 256; l3]; [n; 1024; l4]; [n; 1024; l5];
        [n; 1024; l6]; [n; 1; l7]].
Proof.
  intros. unfold DiscriminatorMelGAN.layers. unfold_stack.
  rewrite reflection_pad1d_shape_run by lia. unfold_stack.
  rewrite (conv1d_shape_step _ n 1 (l + 2 * 7) l1) by (done || arith).
  unfold_stack.
  rewrite (conv1d_shape_step _ n _ l1 l2) by (done || arith). unfold_stack.
  rewrite (conv1d_shape_step _ n _ l2 l3) by (done || arith). unfold_stack.
  rewrite (conv1d_shape_step _ n _ l3 l4) by (done || arith). unfold_stack.
  rewrite (conv1d_shape_step _ n _ l4 l5) by (done || arith). unfold_stack.
  rewrite (conv1d_shape_step _ n _ l5 l6) by (done || arith). unfold_stack.
  rewrite (conv1d_shape_step _ n _ l6 l7) by (done || arith). unfold_stack.
  done.
Qed.

(** The full-band stack accepts exactly the inputs of [fullband_input]
    and maps them to [fullband_shapes]. *)
Lemma fullband_stack_shapes s ss :
  stack_shapes DiscriminatorMelGAN.layers s = Ok ss ↔
  ∃ n l, s = [n; 1; l] ∧ 8 ≤ l ∧ ss = fullband_shapes n l.
Proof.
  split.
  - intros H. unfold DiscriminatorMelGAN.layers in H. unfold_stack in H.
    invert_shapes H.
    eexists _, _. split; [done|].
    repeat (split; [arith|]).
    apply fullband_shapes_intro; arith.
  - intros (n & l & -> & ? & ->).
    unfold fullband_shapes, fullband_lengths, fullband_channels. cbn [zip_with].
    by apply fullband_stack_run.
Qed.

Lemma fullband_final_length l :
  last (fullband_lengths l) = Some (ceil_div l 256).
Proof.
  unfold fullband_lengths. cbn [last]. f_equal.
  remember ((l - 1) / 4 + 1) as l2 eqn:E2.
  remember ((l2 - 1) / 4 + 1) as l3 eqn:E3.
  remember ((l3 - 1) / 4 + 1) as l4 eqn:E4.
  arith.
Qed.

(** ** Constructed discriminators and their forward pass *)

Lemma Module_params_in_le h h' m :
  (length h ≤ length h')%nat → Module_params_in h m → Module_params_in h' m.
Proof.
  intros Hle.
  assert (∀ l, Layer_params_in h l → Layer_params_in h' l) as Hl.
  { intros [|a ps|]; simpl; lia. }
  destruct m as [ls|l]; simpl; [|apply Hl].
  intros Hps. eapply Forall_impl; [done|apply Hl].
Qed.

Lemma copies_first_erase m : copies_first (Module_erase m) = copies_first m.
Proof. by destruct m as [[|[] ?]|[]]. Qed.

Lemma forallb_copies_first_erase ms :
  forallb copies_first (Module_erase <$> ms) = forallb copies_first ms.
Proof.
  induction ms as [|m ms IH]; [done|].
  rewrite fmap_cons. cbn [forallb]. by rewrite copies_first_erase, IH.
Qed.

Lemma tensors_Forall2 (h : heap) ys tys :
  Forall2 (λ y ty, h !! y = Some ty) ys tys → tensors h ys = Some <$> tys.
Proof. unfold tensors. induction 1; simpl; [done|]. by f_equal. Qed.

(** A module list that was constructed from the constructor expressions
    [specs], called on the object [x] of a later store. *)
Lemma discriminator_forward_spec specs h0 ms h1 h x tx :
  mapM Module_init specs h0 = Ok (ms, h1) →
  (length h1 ≤ length h)%nat →
  forallb copies_first specs = true →
  h !! x = Some tx →
  match forward_loop ms [x] h with
  | Ok (es, h') =>
      ∃ new ys tys ss,
        es = x :: ys ∧ h' = h ++ new
        ∧ tensors h' es = Some <$> (tx :: tys)
        ∧ stack_eval h ms tx = Ok tys
        ∧ stack_shapes specs (shape tx) = Ok ss ∧ shape <$> tys = ss
  | Err e => stack_shapes specs (shape tx) = Err e
  end.
Proof.
  intros Hinit Hle Hcopy Hx.
  pose proof (ModuleList_init_spec specs h0) as Hspec. rewrite Hinit in Hspec.
  destruct Hspec as (_ & n0 & -> & <- & Hps).
  assert (Forall (Module_params_in h) ms) as Hps'.
  { eapply Forall_impl; [done|]. intros m. by apply Module_params_in_le. }
  rewrite forallb_copies_first_erase in Hcopy.
  pose proof (forward_loop_spec h ms [] [x] x tx Hps' Hcopy eq_refl) as Hloop.
  rewrite app_nil_r in Hloop. specialize (Hloop Hx).
  pose proof (stack_eval_shapes h ms tx Hps') as Hsh.
  destruct (forward_loop ms [x] h) as [[es h']|e].
  - destruct Hloop as (new & ys & tys & -> & -> & Hys & Heval).
    rewrite Heval in Hsh. simpl in Hsh.
    exists new, ys, tys, (shape <$> tys). repeat split; try done.
    unfold tensors. simpl. f_equal.
    + apply lookup_app_l_Some. done.
    + by apply tensors_Forall2.
  - rewrite Hloop in Hsh. done.
Qed.

Lemma band_forward_spec d q dis h x tx :
  band_ready d q dis h → h !! x = Some tx →
  match DiscriminatorEBEN.forward dis x h with
  | Ok (es, h') =>
      ∃ n l new ys tys,
        shape tx = [n; q; l] ∧ 0 < q ∧ 1 ≤ d ∧ 2 ≤ l ∧ 316 * d - 317 ≤ l
        ∧ es = x :: ys ∧ h' = h ++ new
        ∧ tensors h' es = Some <$> (tx :: tys)
        ∧ stack_eval h (DiscriminatorEBEN.discriminator dis) tx = Ok tys
        ∧ shape <$> tys = band_shapes d n l
  | Err e => e = RuntimeError ∧ ¬ band_input d q (shape tx)
  end.
Proof.
  intros (h0 & h1 & Hinit & Hle) Hx. unfold DiscriminatorEBEN.init in Hinit.
  apply bind_Ok in Hinit as (ms & h1' & Hinit & [= <- <-]).
  unfold DiscriminatorEBEN.forward. simpl.
  pose proof (discriminator_forward_spec _ h0 ms h1' h x tx Hinit Hle eq_refl Hx)
    as Hspec.
  destruct (forward_loop ms [x] h) as [[es h']|e].
  - destruct Hspec as (new & ys & tys & ss & -> & -> & Hts & Heval & Hss & <-).
    apply band_stack_shapes in Hss as (n & l & ? & ? & ? & ? & ? & ?).
    by exists n, l, new, ys, tys.
  - split; [by eapply stack_shapes_Err|].
    intros (n & l & Hs & ? & ? & ? & ?).
    assert (stack_shapes (DiscriminatorEBEN.layers d q) (shape tx)
            = Ok (band_shapes d n l)) as Hok.
    { apply band_stack_shapes. by exists n, l. }
    congruence.
Qed.

Lemma fullband_forward_spec dis h x tx :
  fullband_ready dis h → h !! x = Some tx →
  match DiscriminatorMelGAN.forward dis x h with
  | Ok (es, h') =>
      ∃ n l new ys tys,
        shape tx = [n; 1; l] ∧ 8 ≤ l
        ∧ es = x :: ys ∧ h' = h ++ new
        ∧ tensors h' es = Some <$> (tx :: tys)
        ∧ stack_eval h (DiscriminatorMelGAN.discriminator dis) tx = Ok tys
        ∧ shape <$> tys = fullband_shapes n l
  | Err e => e = RuntimeError ∧ ¬ fullband_input (shape tx)
  end.
Proof.
  intros (h0 & h1 & Hinit & Hle) Hx. unfold DiscriminatorMelGAN.init in Hinit.
  apply bind_Ok in Hinit as (ms & h1' & Hinit & [= <- <-]).
  unfold DiscriminatorMelGAN.forward. simpl.
  pose proof (discriminator_forward_spec _ h0 ms h1' h x tx Hinit Hle eq_refl Hx)
    as Hspec.
  destruct (forward_loop ms [x] h) as [[es h']|e].
  - destruct Hspec as (new & ys & tys & ss & -> & -> & Hts & Heval & Hss & <-).
    apply fullband_stack_shapes in Hss as (n & l & ? & ? & ?).
    by exists n, l, new, ys, tys.
  - split; [by eapply stack_shapes_Err|].
    intros (n & l & Hs & ?).
    assert (stack_shapes DiscriminatorMelGAN.layers (shape tx)
            = Ok (fullband_shapes n l)) as Hok.
    { apply fullband_stack_shapes. by exists n, l. }
    congruence.
Qed.

(** ** Construction of the discriminators *)

Lemma band_layers_ok d q :
  forallb Module_ok (DiscriminatorEBEN.layers d q) = true ↔
  0 < q ∧ divides_channels q.
Proof.
  unfold DiscriminatorEBEN.layers, divides_channels, groups_ok.
  cbn [forallb Module_ok Layer_ok groups_ok in_channels out_channels groups].
  unfold groups_ok.
  cbn [in_channels out_channels groups].
  rewrite !andb_true_iff, !Z.eqb_eq, !Z.ltb_lt.
  split.
  - intros Hall. assert (0 < q) as Hq by tauto.
    split; [done|].
    rewrite <- !(Z.mod_divide _ q) by lia. tauto.
  - intros (Hq & Hdiv). rewrite <- !(Z.mod_divide _ q) in Hdiv by lia.
    rewrite Z_mod_same_full.
    repeat match goal with |- _ ∧ _ => split end; done || tauto.
Qed.

Lemma band_init_spec d q h :
  match DiscriminatorEBEN.init d q h with
  | Ok (dis, h') =>
      (0 < q ∧ divides_channels q)
      ∧ ∃ n, h' = h ++ n ∧ band_ready d q dis h'
  | Err e => e = ValueError ∧ ¬ (0 < q ∧ divides_channels q)
  end.
Proof.
  pose proof (band_layers_ok d q) as Hiff.
  pose proof (ModuleList_init_spec (DiscriminatorEBEN.layers d q) h) as Hspec.
  destruct (DiscriminatorEBEN.init d q h) as [[dis h']|e] eqn:Hinit.
  - pose proof Hinit as Hinit'. unfold DiscriminatorEBEN.init in Hinit'.
    apply bind_Ok in Hinit' as (ms & h1 & Hms & [= <- <-]).
    rewrite Hms in Hspec. destruct Hspec as (Hok & n & -> & _).
    split; [by apply Hiff|]. exists n. split; [done|]. by exists h, (h ++ n).
  - unfold DiscriminatorEBEN.init, mbind, M_bind in Hinit.
    destruct (mapM Module_init (DiscriminatorEBEN.layers d q) h) as [[ms h1]|e'];
      [done|].
    destruct Hspec as [-> Hok]. injection Hinit as <-.
    split; [done|]. rewrite <- Hiff, Hok. done.
Qed.

Lemma fullband_init_spec h :
  ∃ dis n, DiscriminatorMelGAN.init h = Ok (dis, h ++ n)
           ∧ fullband_ready dis (h ++ n).
Proof.
  pose proof (ModuleList_init_spec DiscriminatorMelGAN.layers h) as Hspec.
  destruct (DiscriminatorMelGAN.init h) as [[dis h']|e] eqn:Hinit.
  - pose proof Hinit as Hinit'. unfold DiscriminatorMelGAN.init in Hinit'.
    apply bind_Ok in Hinit' as (ms & h1 & Hms & [= <- <-]).
    rewrite Hms in Hspec. destruct Hspec as (Hok & n & -> & _).
    eexists _, n. split; [done|]. by exists h, (h ++ n).
  - unfold DiscriminatorMelGAN.init, mbind, M_bind in Hinit.
    destruct (mapM Module_init DiscriminatorMelGAN.layers h) as [[ms h1]|e'];
      [done|].
    by destruct Hspec as [_ Hok].
Qed.

Lemma band_ready_le d q dis h h' :
  (length h ≤ length h')%nat → band_ready d q dis h → band_ready d q dis h'.
Proof. intros ? (h0 & h1 & ? & ?). exists h0, h1. split; [done|lia]. Qed.

Lemma fullband_ready_le dis h h' :
  (length h ≤ length h')%nat → fullband_ready dis h → fullband_ready dis h'.
Proof. intros ? (h0 & h1 & ? & ?). exists h0, h1. split; [done|lia]. Qed.

(** The ensemble: three band discriminators with dilation 1, 2, 3 and one
    full-band discriminator, constructed in this order. *)
Lemma ensemble_init_spec q h :
  match DiscriminatorMultiScales.init q h with
  | Ok (dis, h') =>
      (0 < q ∧ divides_channels q)
      ∧ ∃ d1 d2 d3 n,
          h' = h ++ n
          ∧ DiscriminatorMultiScales.pqmf_discriminators dis = [d1; d2; d3]
          ∧ band_ready 1 q d1 h' ∧ band_ready 2 q d2 h' ∧ band_ready 3 q d3 h'
          ∧ fullband_ready (DiscriminatorMultiScales.melgan_discriminator dis) h'
  | Err e => e = ValueError ∧ ¬ (0 < q ∧ divides_channels q)
  end.
Proof.
  unfold DiscriminatorMultiScales.init. cbn [mapM].
  unfold mbind, M_bind, mret, M_ret.
  pose proof (band_init_spec 1 q h) as H1.
  destruct (DiscriminatorEBEN.init 1 q h) as [[d1 h1]|e]; [|done].
  destruct H1 as (Hq & n1 & -> & R1).
  pose proof (band_init_spec 2 q (h ++ n1)) as H2.
  destruct (DiscriminatorEBEN.init 2 q (h ++ n1)) as [[d2 h2]|e]; [|tauto].
  destruct H2 as (_ & n2 & -> & R2).
  pose proof (band_init_spec 3 q ((h ++ n1) ++ n2)) as H3.
  destruct (DiscriminatorEBEN.init 3 q ((h ++ n1) ++ n2)) as [[d3 h3]|e]; [|tauto].
  destruct H3 as (_ & n3 & -> & R3).
  destruct (fullband_init_spec (((h ++ n1) ++ n2) ++ n3)) as (d4 & n4 & -> & R4).
  split; [done|]. exists d1, d2, d3, (n1 ++ n2 ++ n3 ++ n4). cbn.
  split; [by rewrite <- !(assoc_L (++))|]. split; [done|].
  repeat split; try done.
  - eapply band_ready_le; [|done]. rewrite !length_app. lia.
  - eapply band_ready_le; [|done]. rewrite !length_app. lia.
  - eapply band_ready_le; [|done]. rewrite !length_app. lia.
Qed.

Lemma ensemble_ready_parts q dis h :
  ensemble_ready q dis h →
  ∃ d1 d2 d3,
    DiscriminatorMultiScales.pqmf_discriminators dis = [d1; d2; d3]
    ∧ band_ready 1 q d1 h ∧ band_ready 2 q d2 h ∧ band_ready 3 q d3 h
    ∧ fullband_ready (DiscriminatorMultiScales.melgan_discriminator dis) h.
Proof.
  intros (h0 & h1 & Hinit & Hle).
  pose proof (ensemble_init_spec q h0) as Hspec. rewrite Hinit in Hspec.
  destruct Hspec as (_ & d1 & d2 & d3 & n & -> & Hp & R1 & R2 & R3 & R4).
  exists d1, d2, d3. split; [done|].
  repeat split.
  - by apply (band_ready_le _ _ _ (h0 ++ n)).
  - by apply (band_ready_le _ _ _ (h0 ++ n)).
  - by apply (band_ready_le _ _ _ (h0 ++ n)).
  - by apply (fullband_ready_le _ (h0 ++ n)).
Qed.

Lemma band_input_mono d d' q s :
  1 ≤ d' ≤ d → band_input d q s → band_input d' q s.
Proof.
  intros ? (n & l & -> & ? & ? & ? & ?). exists n, l. repeat split; lia.
Qed.

(** ** The ensemble's forward pass *)

(** The ensemble calls its four discriminators one after the other, each
    in the store the previous one left; no call changes an object that
    existed before it. *)
Lemma ensemble_forward_spec q dis h bands audio tb ta :
  ensemble_ready q dis h → h !! bands = Some tb → h !! audio = Some ta →
  match DiscriminatorMultiScales.forward dis bands audio h with
  | Ok (embs, h') =>
      ∃ d1 d2 d3 e1 e2 e3 e4 n1 n2 n3 n4,
        DiscriminatorMultiScales.pqmf_discriminators dis = [d1; d2; d3]
        ∧ band_ready 1 q d1 h ∧ band_ready 2 q d2 h ∧ band_ready 3 q d3 h
        ∧ fullband_ready (DiscriminatorMultiScales.melgan_discriminator dis) h
        ∧ embs = [e1; e2; e3; e4]
        ∧ DiscriminatorEBEN.forward d1 bands h = Ok (e1, h ++ n1)
        ∧ DiscriminatorEBEN.forward d2 bands (h ++ n1) = Ok (e2, h ++ n1 ++ n2)
        ∧ DiscriminatorEBEN.forward d3 bands (h ++ n1 ++ n2)
          = Ok (e3, h ++ n1 ++ n2 ++ n3)
        ∧ DiscriminatorMelGAN.forward
            (DiscriminatorMultiScales.melgan_discriminator dis) audio
            (h ++ n1 ++ n2 ++ n3)
          = Ok (e4, h ++ n1 ++ n2 ++ n3 ++ n4)
        ∧ h' = h ++ n1 ++ n2 ++ n3 ++ n4
  | Err e =>
      e = RuntimeError
      ∧ ¬ (band_input 3 q (shape tb) ∧ fullband_input (shape ta))
  end.
Proof.
  intros Hready Hb Ha.
  destruct (ensemble_ready_parts _ _ _ Hready)
    as (d1 & d2 & d3 & Hp & R1 & R2 & R3 & R4).
  unfold DiscriminatorMultiScales.forward. rewrite Hp.
  cbn [DiscriminatorMultiScales.pqmf_loop].
  unfold mbind, M_bind, mret, M_ret.
  pose proof (band_forward_spec 1 q d1 h bands tb R1 Hb) as H1.
  destruct (DiscriminatorEBEN.forward d1 bands h) as [[e1 h1]|e] eqn:E1.
  2:{ destruct H1 as [-> H1]. split; [done|]. intros [Hin _]. apply H1.
      eapply band_input_mono; [|done]. lia. }
  destruct H1 as (? & ? & n1 & ? & ? & _ & _ & _ & _ & _ & _ & -> & _).
  assert (∀ n, (length h ≤ length (h ++ n))%nat) as Hle
    by (intros; rewrite length_app; lia).
  pose proof (band_forward_spec 2 q d2 (h ++ n1) bands tb
    (band_ready_le _ _ _ _ _ (Hle _) R2) (lookup_app_l_Some _ _ _ _ Hb)) as H2.
  destruct (DiscriminatorEBEN.forward d2 bands (h ++ n1)) as [[e2 h2]|e] eqn:E2.
  2:{ destruct H2 as [-> H2]. split; [done|]. intros [Hin _]. apply H2.
      eapply band_input_mono; [|done]. lia. }
  destruct H2 as (? & ? & n2 & ? & ? & _ & _ & _ & _ & _ & _ & -> & _).
  rewrite <- (assoc_L (++)) in E2 |- *.
  pose proof (band_forward_spec 3 q d3 (h ++ n1 ++ n2) bands tb
    (band_ready_le _ _ _ _ _ (Hle _) R3) (lookup_app_l_Some _ _ _ _ Hb)) as H3.
  destruct (DiscriminatorEBEN.forward d3 bands (h ++ n1 ++ n2)) as [[e3 h3]|e]
    eqn:E3.
  2:{ destruct H3 as [-> H3]. split; [done|]. by intros [Hin _]. }
  destruct H3 as (? & ? & n3 & ? & ? & _ & _ & _ & _ & _ & _ & -> & _).
  rewrite <- !(assoc_L (++)) in E3 |- *.
  pose proof (fullband_forward_spec
    (DiscriminatorMultiScales.melgan_discriminator dis)
    (h ++ n1 ++ n2 ++ n3) audio ta
    (fullband_ready_le _ _ _ (Hle _) R4) (lookup_app_l_Some _ _ _ _ Ha)) as H4.
  destruct (DiscriminatorMelGAN.forward _ audio (h ++ n1 ++ n2 ++ n3))
    as [[e4 h4]|e] eqn:E4.
  2:{ destruct H4 as [-> H4]. split; [done|]. by intros [_ Hin]. }
  destruct H4 as (? & ? & n4 & ? & ? & _ & _ & _ & -> & _).
  exists d1, d2, d3, e1, e2, e3, e4, n1, n2, n3, n4.
  rewrite <- !(assoc_L (++)) in E4. rewrite <- !(assoc_L (++)).
  by repeat split.
Qed.

(** ** Reading the result of a forward pass *)

Lemma forward_loop_outputs ms : ∀ es x h es' h',
  last es = Some x →
  forward_loop ms es h = Ok (es', h') →
  ∃ ys, es' = es ++ ys ∧ block_outputs ms x h ys h'.
Proof.
  induction ms as [|m ms IH]; intros es x h es' h' Hlast; simpl.
  - unfold_M. intros [= <- <-]. exists []. rewrite app_nil_r.
    split; [done|constructor].
  - rewrite Hlast. intros (y & h1 & Hm & Hrest)%bind_Ok.
    apply (IH _ y) in Hrest as (ys & -> & Hys); [|apply last_snoc].
    exists (y :: ys). rewrite <- (assoc_L (++)). split; [done|].
    by econstructor.
Qed.

Lemma block_outputs_length ms x h ys h' :
  block_outputs ms x h ys h' → length ys = length ms.
Proof. induction 1; simpl; congruence. Qed.

Lemma shapes_tensors (h : heap) ls ts :
  tensors h ls = Some <$> ts → shapes h ls = Some <$> (shape <$> ts).
Proof.
  unfold tensors, shapes. revert ts.
  induction ls as [|l ls IH]; intros [|t ts]; simpl; try done.
  intros [= Hl Hls]. rewrite Hl. simpl. f_equal. by apply IH.
Qed.

Lemma channels_shapes (h : heap) ls ss :
  shapes h ls = Some <$> ss → channels h ls = (λ s, s !! 1%nat) <$> ss.
Proof.
  unfold shapes, channels, channels_of. revert ss.
  induction ls as [|l ls IH]; intros [|s ss]; simpl; try done.
  intros [= Hl Hls]. f_equal; [|by apply IH].
  destruct (h !! l); simpl in *; congruence.
Qed.

Lemma lengths_shapes (h : heap) ls ss :
  shapes h ls = Some <$> ss → lengths h ls = (λ s, s !! 2%nat) <$> ss.
Proof.
  unfold shapes, lengths, length_of. revert ss.
  induction ls as [|l ls IH]; intros [|s ss]; simpl; try done.
  intros [= Hl Hls]. f_equal; [|by apply IH].
  destruct (h !! l); simpl in *; congruence.
Qed.

(** What a successful call of a band discriminator returns. *)
Lemma band_forward_Ok d q dis h bands tb embs h' :
  band_ready d q dis h → h !! bands = Some tb →
  DiscriminatorEBEN.forward dis bands h = Ok (embs, h') →
  ∃ n l ys new,
    shape tb = [n; q; l] ∧ band_input d q (shape tb)
    ∧ embs = bands :: ys ∧ h' = h ++ new
    ∧ block_outputs (DiscriminatorEBEN.discriminator dis) bands h ys h'
    ∧ length ys = 8%nat
    ∧ shapes h' embs = Some <$> ([n; q; l] :: band_shapes d n l).
Proof.
  intros Hready Hx Hfwd.
  pose proof (band_forward_spec d q dis h bands tb Hready Hx) as Hspec.
  rewrite Hfwd in Hspec.
  destruct Hspec as (n & l & new & ys & tys & Hs & ? & ? & ? & ? & -> & -> & Hts
                       & _ & Hss).
  exists n, l, ys, new.
  apply (forward_loop_outputs _ [bands] bands) in Hfwd as (ys' & [= <-] & Hout);
    [|done].
  split; [done|]. split; [by rewrite Hs; exists n, l|].
  do 3 (split; [done|]). split.
  - apply shapes_tensors in Hts. rewrite fmap_cons, Hss, Hs in Hts.
    apply (f_equal length) in Hts. unfold shapes in Hts.
    rewrite !length_fmap in Hts. simpl in Hts. lia.
  - apply shapes_tensors in Hts. by rewrite fmap_cons, Hss, Hs in Hts.
Qed.

(** A band discriminator accepts exactly the inputs of [band_input]. *)
Lemma band_forward_total d q dis h bands tb :
  band_ready d q dis h → h !! bands = Some tb →
  band_input d q (shape tb) →
  ∃ embs h', DiscriminatorEBEN.forward dis bands h = Ok (embs, h').
Proof.
  intros Hready Hx Hin.
  pose proof (band_forward_spec d q dis h bands tb Hready Hx) as Hspec.
  destruct (DiscriminatorEBEN.forward dis bands h) as [[embs h']|e]; [by eauto|].
  by destruct Hspec as [_ []].
Qed.

(** What a successful call of the full-band discriminator returns. *)
Lemma fullband_forward_Ok dis h audio ta embs h' :
  fullband_ready dis h → h !! audio = Some ta →
  DiscriminatorMelGAN.forward dis audio h = Ok (embs, h') →
  ∃ n l ys new,
    shape ta = [n; 1; l] ∧ fullband_input (shape ta)
    ∧ embs = audio :: ys ∧ h' = h ++ new
    ∧ block_outputs (DiscriminatorMelGAN.discriminator dis) audio h ys h'
    ∧ length ys = 7%nat
    ∧ shapes h' embs = Some <$> ([n; 1; l] :: fullband_shapes n l).
Proof.
  intros Hready Hx Hfwd.
  pose proof (fullband_forward_spec dis h audio ta Hready Hx) as Hspec.
  rewrite Hfwd in Hspec.
  destruct Hspec as (n & l & new & ys & tys & Hs & ? & -> & -> & Hts & _ & Hss).
  exists n, l, ys, new.
  apply (forward_loop_outputs _ [audio] audio) in Hfwd as (ys' & [= <-] & Hout);
    [|done].
  split; [done|]. split; [by rewrite Hs; exists n, l|].
  do 3 (split; [done|]). split.
  - apply shapes_tensors in Hts. rewrite fmap_cons, Hss, Hs in Hts.
    apply (f_equal length) in Hts. unfold shapes in Hts.
    rewrite !length_fmap in Hts. simpl in Hts. lia.
  - apply shapes_tensors in Hts. by rewrite fmap_cons, Hss, Hs in Hts.
Qed.

Lemma fullband_forward_total dis h audio ta :
  fullband_ready dis h → h !! audio = Some ta →
  fullband_input (shape ta) →
  ∃ embs h', DiscriminatorMelGAN.forward dis audio h = Ok (embs, h').
Proof.
  intros Hready Hx Hin.
  pose proof (fullband_forward_spec dis h audio ta Hready Hx) as Hspec.
  destruct (DiscriminatorMelGAN.forward dis audio h) as [[embs h']|e];
    [by eauto|].
  by destruct Hspec as [_ []].
Qed.

Lemma band_ready_blocks d q dis h :
  band_ready d q dis h →
  DiscriminatorEBEN.dilation dis = d
  ∧ Module_erase <$> DiscriminatorEBEN.discriminator dis
    = DiscriminatorEBEN.layers d q
  ∧ Forall (Module_params_in h) (DiscriminatorEBEN.discriminator dis).
Proof.
  intros (h0 & h1 & Hinit & Hle). unfold DiscriminatorEBEN.init in Hinit.
  apply bind_Ok in Hinit as (ms & h1' & Hinit & [= <- <-]).
  pose proof (ModuleList_init_spec (DiscriminatorEBEN.layers d q) h0) as Hspec.
  rewrite Hinit in Hspec. destruct Hspec as (_ & n0 & -> & He & Hps).
  split; [done|]. split; [done|]. simpl.
  eapply Forall_impl; [done|]. intros m. by apply Module_params_in_le.
Qed.

Lemma fullband_ready_blocks dis h :
  fullband_ready dis h →
  Module_erase <$> DiscriminatorMelGAN.discriminator dis
    = DiscriminatorMelGAN.layers
  ∧ Forall (Module_params_in h) (DiscriminatorMelGAN.discriminator dis).
Proof.
  intros (h0 & h1 & Hinit & Hle). unfold DiscriminatorMelGAN.init in Hinit.
  apply bind_Ok in Hinit as (ms & h1' & Hinit & [= <- <-]).
  pose proof (ModuleList_init_spec DiscriminatorMelGAN.layers h0) as Hspec.
  rewrite Hinit in Hspec. destruct Hspec as (_ & n0 & -> & He & Hps).
  split; [done|]. simpl.
  eapply Forall_impl; [done|]. intros m. by apply Module_params_in_le.
Qed.

Lemma tensors_app (h n : heap) ls ts :
  tensors h ls = Some <$> ts → tensors (h ++ n) ls = Some <$> ts.
Proof.
  unfold tensors. revert ts.
  induction ls as [|l ls IH]; intros [|t ts]; simpl; try done.
  intros [= Hl Hls]. f_equal; [|by apply IH]. by apply lookup_app_l_Some.
Qed.

(** What a successful call of the ensemble returns: four sequences, each
    headed by its input, whose tensors are the ones [stack_eval] computes
    from the input and the parameters in the store before the call. *)
Lemma ensemble_forward_Ok q dis h bands audio tb ta embs h' :
  ensemble_ready q dis h → h !! bands = Some tb → h !! audio = Some ta →
  DiscriminatorMultiScales.forward dis bands audio h = Ok (embs, h') →
  ∃ d1 d2 d3 e1 e2 e3 e4 t1 t2 t3 t4 new nb lb na la,
    DiscriminatorMultiScales.pqmf_discriminators dis = [d1; d2; d3]
    ∧ embs = [bands :: e1; bands :: e2; bands :: e3; audio :: e4]
    ∧ h' = h ++ new
    ∧ shape tb = [nb; q; lb] ∧ shape ta = [na; 1; la]
    ∧ band_input 3 q (shape tb) ∧ fullband_input (shape ta)
    ∧ stack_eval h (DiscriminatorEBEN.discriminator d1) tb = Ok t1
    ∧ stack_eval h (DiscriminatorEBEN.discriminator d2) tb = Ok t2
    ∧ stack_eval h (DiscriminatorEBEN.discriminator d3) tb = Ok t3
    ∧ stack_eval h (DiscriminatorMelGAN.discriminator
                      (DiscriminatorMultiScales.melgan_discriminator dis)) ta
      = Ok t4
    ∧ shape <$> t1 = band_shapes 1 nb lb
    ∧ shape <$> t2 = band_shapes 2 nb lb
    ∧ shape <$> t3 = band_shapes 3 nb lb
    ∧ shape <$> t4 = fullband_shapes na la
    ∧ tensors h' <$> embs
      = [Some <$> tb :: t1; Some <$> tb :: t2; Some <$> tb :: t3;
         Some <$> ta :: t4].
Proof.
  intros Hready Hb Ha Hfwd.
  pose proof (ensemble_forward_spec q dis h bands audio tb ta Hready Hb Ha)
    as Hspec.
  rewrite Hfwd in Hspec.
  destruct Hspec as (d1 & d2 & d3 & e1 & e2 & e3 & e4 & n1 & n2 & n3 & n4 & Hp
                       & R1 & R2 & R3 & R4 & -> & E1 & E2 & E3 & E4 & ->).
  assert (∀ n, (length h ≤ length (h ++ n))%nat) as Hle
    by (intros; rewrite length_app; lia).
  pose proof (band_forward_spec 1 q d1 h bands tb R1 Hb) as H1.
  rewrite E1 in H1.
  destruct H1 as (nb & lb & n1' & y1 & t1 & Hs & _ & _ & _ & _ & -> & _ & T1 & V1
                    & S1).
  pose proof (band_forward_spec 2 q d2 (h ++ n1) bands tb
    (band_ready_le _ _ _ _ _ (Hle _) R2) (lookup_app_l_Some _ _ _ _ Hb)) as H2.
  rewrite E2 in H2.
  destruct H2 as (nb2 & lb2 & n2' & y2 & t2 & Hs2 & _ & _ & _ & _ & -> & _ & T2
                    & V2 & S2).
  pose proof (band_forward_spec 3 q d3 (h ++ n1 ++ n2) bands tb
    (band_ready_le _ _ _ _ _ (Hle _) R3) (lookup_app_l_Some _ _ _ _ Hb)) as H3.
  rewrite E3 in H3.
  destruct H3 as (nb3 & lb3 & n3' & y3 & t3 & Hs3 & ? & ? & ? & ? & -> & _ & T3
                    & V3 & S3).
  pose proof (fullband_forward_spec
    (DiscriminatorMultiScales.melgan_discriminator dis)
    (h ++ n1 ++ n2 ++ n3) audio ta
    (fullband_ready_le _ _ _ (Hle _) R4) (lookup_app_l_Some _ _ _ _ Ha)) as H4.
  rewrite E4 in H4.
  destruct H4 as (na & la & n4' & y4 & t4 & Hsa & ? & -> & _ & T4 & V4 & S4).
  rewrite stack_eval_app in V2 by (by apply (band_ready_blocks 2 q)).
  rewrite stack_eval_app in V3 by (by apply (band_ready_blocks 3 q)).
  rewrite stack_eval_app in V4 by (by apply fullband_ready_blocks).
  rewrite Hs in Hs2, Hs3. injection Hs2 as <- <-. injection Hs3 as <- <-.
  exists d1, d2, d3, y1, y2, y3, y4, t1, t2, t3, t4, (n1 ++ n2 ++ n3 ++ n4).
  exists nb, lb, na, la.
  do 5 (split; [done|]).
  split; [by rewrite Hs; exists nb, lb|].
  split; [by rewrite Hsa; exists na, la|].
  do 8 (split; [done|]).
  cbn [fmap list_fmap]. f_equal; [|f_equal; [|f_equal; [|f_equal]]].
  - by apply (tensors_app _ (n2 ++ n3 ++ n4)) in T1; rewrite <- (assoc_L (++)) in T1.
  - apply (tensors_app _ (n3 ++ n4)) in T2. by rewrite <- !(assoc_L (++)) in T2.
  - apply (tensors_app _ n4) in T3. by rewrite <- !(assoc_L (++)) in T3.
  - done.
Qed.

(** The ensemble accepts every pair of inputs that its third band
    discriminator and its full-band discriminator accept. *)
Lemma ensemble_forward_total q dis h bands audio tb ta :
  ensemble_ready q dis h → h !! bands = Some tb → h !! audio = Some ta →
  band_input 3 q (shape tb) → fullband_input (shape ta) →
  ∃ embs h', DiscriminatorMultiScales.forward dis bands audio h = Ok (embs, h').
Proof.
  intros Hready Hb Ha Hinb Hina.
  pose proof (ensemble_forward_spec q dis h bands audio tb ta Hready Hb Ha)
    as Hspec.
  destruct (DiscriminatorMultiScales.forward dis bands audio h)
    as [[embs h']|e]; [by eauto|].
  by destruct Hspec as [_ []].
Qed.

(** ** Constructed discriminators with an input in the store *)

Lemma setup_band_ready d q s h0 dis bands h :
  setup_band d q s h0 = Ok ((dis, bands), h) →
  band_ready d q dis h
  ∧ h !! bands = Some {| shape := s; data := Buffer bands |}.
Proof.
  unfold setup_band.
  intros (dis' & h1 & Hinit & (x & h2 & Hx & [= <- <- <-])%bind_Ok)%bind_Ok.
  unfold fresh in Hx. injection Hx as <- <-. split.
  - exists h0, h1. split; [done|]. rewrite length_app. lia.
  - apply lookup_alloc.
Qed.

Lemma setup_fullband_ready s h0 dis audio h :
  setup_fullband s h0 = Ok ((dis, audio), h) →
  fullband_ready dis h
  ∧ h !! audio = Some {| shape := s; data := Buffer audio |}.
Proof.
  unfold setup_fullband.
  intros (dis' & h1 & Hinit & (x & h2 & Hx & [= <- <- <-])%bind_Ok)%bind_Ok.
  unfold fresh in Hx. injection Hx as <- <-. split.
  - exists h0, h1. split; [done|]. rewrite length_app. lia.
  - apply lookup_alloc.
Qed.

Lemma setup_ensemble_ready q sb sa h0 dis bands audio h :
  setup_ensemble q sb sa h0 = Ok ((dis, bands, audio), h) →
  ensemble_ready q dis h
  ∧ h !! bands = Some {| shape := sb; data := Buffer bands |}
  ∧ h !! audio = Some {| shape := sa; data := Buffer audio |}.
Proof.
  unfold setup_ensemble.
  intros (dis' & h1 & Hinit & (x & h2 & Hx & (y & h3 & Hy & [= <- <- <- <-])
            %bind_Ok)%bind_Ok)%bind_Ok.
  unfold fresh in Hx, Hy. injection Hx as <- <-. injection Hy as <- <-.
  split; [|split].
  - exists h0, h1. split; [done|]. rewrite !length_app. lia.
  - apply lookup_app_l_Some, lookup_alloc.
  - apply lookup_alloc.
Qed.

(** ** Claims about one discriminator *)

(** C4.  On every input it accepts, a constructed band discriminator
    returns the input object followed by the outputs of its 8 list entries,
    each called on the element before it: 9 objects.  The full-band
    discriminator returns the input object followed by the outputs of its
    7 entries: 8 objects. *)
Theorem evaluate_returns_input_and_block_outputs :
  (∀ d q dis h bands tb,
     band_ready d q dis h → h !! bands = Some tb →
     band_input d q (shape tb) →
     ∃ ys h',
       DiscriminatorEBEN.forward dis bands h = Ok (bands :: ys, h')
       ∧ length (bands :: ys) = 9%nat
       ∧ length (DiscriminatorEBEN.discriminator dis) = 8%nat
       ∧ block_outputs (DiscriminatorEBEN.discriminator dis) bands h ys h'
       ∧ h' !! bands = Some tb)
  ∧ (∀ dis h audio ta,
       fullband_ready dis h → h !! audio = Some ta →
       fullband_input (shape ta) →
       ∃ ys h',
         DiscriminatorMelGAN.forward dis audio h = Ok (audio :: ys, h')
         ∧ length (audio :: ys) = 8%nat
         ∧ length (DiscriminatorMelGAN.discriminator dis) = 7%nat
         ∧ block_outputs (DiscriminatorMelGAN.discriminator dis) audio h ys h'
         ∧ h' !! audio = Some ta).
Proof.
  split.
  - intros d q dis h bands tb Hready Hb Hin.
    destruct (band_forward_total _ _ _ _ _ _ Hready Hb Hin) as (embs & h' & Hfwd).
    destruct (band_forward_Ok _ _ _ _ _ _ _ _ Hready Hb Hfwd)
      as (n & l & ys & new & _ & _ & -> & -> & Hout & Hlen & _).
    exists ys, (h ++ new). split; [done|]. simpl. rewrite Hlen.
    split; [done|]. split; [|split; [done|by apply lookup_app_l_Some]].
    by rewrite <- (block_outputs_length _ _ _ _ _ Hout).
  - intros dis h audio ta Hready Ha Hin.
    destruct (fullband_forward_total _ _ _ _ Hready Ha Hin) as (embs & h' & Hfwd).
    destruct (fullband_forward_Ok _ _ _ _ _ _ Hready Ha Hfwd)
      as (n & l & ys & new & _ & _ & -> & -> & Hout & Hlen & _).
    exists ys, (h ++ new). split; [done|]. simpl. rewrite Hlen.
    split; [done|]. split; [|split; [done|by apply lookup_app_l_Some]].
    by rewrite <- (block_outputs_length _ _ _ _ _ Hout).
Qed.

Lemma evaluate_returns_input_and_block_outputs_witness :
  (∃ dis bands h tb,
     setup_band 1 4 [2; 4; 1024] [] = Ok ((dis, bands), h)
     ∧ h !! bands = Some tb ∧ band_input 1 4 (shape tb)
     ∧ ∃ ys h',
         DiscriminatorEBEN.forward dis bands h = Ok (bands :: ys, h')
         ∧ length (bands :: ys) = 9%nat)
  ∧ (∃ dis audio h ta,
       setup_fullband [2; 1; 4096] [] = Ok ((dis, audio), h)
       ∧ h !! audio = Some ta ∧ fullband_input (shape ta)
       ∧ ∃ ys h',
           DiscriminatorMelGAN.forward dis audio h = Ok (audio :: ys, h')
           ∧ length (audio :: ys) = 8%nat).
Proof.
  split.
  - assert (∃ dis bands h, setup_band 1 4 [2; 4; 1024] [] = Ok ((dis, bands), h))
      as (dis & bands & h & E) by (eexists _, _, _; vm_compute; reflexivity).
    destruct (setup_band_ready _ _ _ _ _ _ _ E) as [Hready Hb].
    assert (band_input 1 4 [2; 4; 1024]) as Hin
      by (exists 2, 1024; repeat split; lia).
    eexists dis, bands, h, _.
    split; [exact E|]. split; [exact Hb|]. split; [exact Hin|].
    destruct (proj1 evaluate_returns_input_and_block_outputs
                1 4 dis h bands _ Hready Hb Hin) as (ys & h' & ? & ? & _).
    exists ys, h'. split; assumption.
  - assert (∃ dis audio h, setup_fullband [2; 1; 4096] [] = Ok ((dis, audio), h))
      as (dis & audio & h & E) by (eexists _, _, _; vm_compute; reflexivity).
    destruct (setup_fullband_ready _ _ _ _ _ E) as [Hready Ha].
    assert (fullband_input [2; 1; 4096]) as Hin
      by (exists 2, 4096; repeat split; lia).
    eexists dis, audio, h, _.
    split; [exact E|]. split; [exact Ha|]. split; [exact Hin|].
    destruct (proj2 evaluate_returns_input_and_block_outputs
                dis h audio _ Hready Ha Hin) as (ys & h' & ? & ? & _).
    exists ys, h'. split; assumption.
Defined.

(** C6.  The channel counts of the tensors a band discriminator returns
    are q, 80, 160, 320, 480, 640, 960, 960, 1, those of the full-band
    discriminator 1, 16, 64, 256, 1024, 1024, 1024, 1, in this order; the
    last tensor of either sequence has one channel. *)
Theorem channel_counts_match_tables :
  (∀ d q dis h bands tb embs h',
     band_ready d q dis h → h !! bands = Some tb →
     DiscriminatorEBEN.forward dis bands h = Ok (embs, h') →
     channels h' embs
     = Some <$> [q; 80; 160; 320; 480; 640; 960; 960; 1]
     ∧ last (channels h' embs) = Some (Some 1))
  ∧ (∀ dis h audio ta embs h',
       fullband_ready dis h → h !! audio = Some ta →
       DiscriminatorMelGAN.forward dis audio h = Ok (embs, h') →
       channels h' embs
       = Some <$> [1; 16; 64; 256; 1024; 1024; 1024; 1]
       ∧ last (channels h' embs) = Some (Some 1)).
Proof.
  split.
  - intros d q dis h bands tb embs h' Hready Hb Hfwd.
    destruct (band_forward_Ok _ _ _ _ _ _ _ _ Hready Hb Hfwd)
      as (n & l & ys & new & _ & _ & _ & _ & _ & _ & Hsh).
    apply channels_shapes in Hsh. rewrite Hsh. by split.
  - intros dis h audio ta embs h' Hready Ha Hfwd.
    destruct (fullband_forward_Ok _ _ _ _ _ _ Hready Ha Hfwd)
      as (n & l & ys & new & _ & _ & _ & _ & _ & _ & Hsh).
    apply channels_shapes in Hsh. rewrite Hsh. by split.
Qed.

Lemma channel_counts_match_tables_witness :
  (∃ dis bands h tb embs h',
     setup_band 1 4 [2; 4; 1024] [] = Ok ((dis, bands), h)
     ∧ h !! bands = Some tb
     ∧ DiscriminatorEBEN.forward dis bands h = Ok (embs, h')
     ∧ channels h' embs = Some <$> [4; 80; 160; 320; 480; 640; 960; 960; 1])
  ∧ (∃ dis audio h ta embs h',
       setup_fullband [2; 1; 4096] [] = Ok ((dis, audio), h)
       ∧ h !! audio = Some ta
       ∧ DiscriminatorMelGAN.forward dis audio h = Ok (embs, h')
       ∧ channels h' embs = Some <$> [1; 16; 64; 256; 1024; 1024; 1024; 1]).
Proof.
  split.
  - assert (∃ dis bands h embs h',
              setup_band 1 4 [2; 4; 1024] [] = Ok ((dis, bands), h)
              ∧ DiscriminatorEBEN.forward dis bands h = Ok (embs, h'))
      as (dis & bands & h & embs & h' & E & F)
      by (eexists _, _, _, _, _; split; vm_compute; reflexivity).
    destruct (setup_band_ready _ _ _ _ _ _ _ E) as [Hready Hb].
    eexists dis, bands, h, _, embs, h'.
    split; [exact E|]. split; [exact Hb|]. split; [exact F|].
    exact (proj1 (proj1 channel_counts_match_tables
                    1 4 dis h bands _ embs h' Hready Hb F)).
  - assert (∃ dis audio h embs h',
              setup_fullband [2; 1; 4096] [] = Ok ((dis, audio), h)
              ∧ DiscriminatorMelGAN.forward dis audio h = Ok (embs, h'))
      as (dis & audio & h & embs & h' & E & F)
      by (eexists _, _, _, _, _; split; vm_compute; reflexivity).
    destruct (setup_fullband_ready _ _ _ _ _ E) as [Hready Ha].
    eexists dis, audio, h, _, embs, h'.
    split; [exact E|]. split; [exact Ha|]. split; [exact F|].
    exact (proj1 (proj2 channel_counts_match_tables
                    dis h audio _ embs h' Hready Ha F)).
Defined.

Lemma last_lengths_shapes (h : heap) embs s ss ls x :
  shapes h embs = Some <$> (s :: ss) →
  (λ s, s !! 2%nat) <$> ss = Some <$> ls →
  last ls = Some x →
  last (lengths h embs) = Some (Some x).
Proof.
  intros Hsh Hss Hlast. apply lengths_shapes in Hsh.
  rewrite Hsh, fmap_cons, Hss.
  apply last_Some in Hlast as [ls' ->].
  rewrite fmap_app, app_comm_cons. apply last_snoc.
Qed.

(** C3, as the code has it.  On every input of temporal length [l] that
    it accepts, the band discriminator with dilation [d] returns a final
    tensor of temporal length ceil((l + 4d - 2) / 32) - 10 (d - 1), which
    is ceil((l + 2) / 32) for the default dilation 1; the full-band
    discriminator returns a final tensor of temporal length
    ceil(l / 256). *)
Theorem final_length_by_dilation :
  (∀ d q dis h bands tb n l,
     band_ready d q dis h → h !! bands = Some tb →
     shape tb = [n; q; l] → band_input d q (shape tb) →
     ∃ embs h',
       DiscriminatorEBEN.forward dis bands h = Ok (embs, h')
       ∧ last (lengths h' embs)
         = Some (Some (ceil_div (l + 4 * d - 2) 32 - 10 * (d - 1))))
  ∧ (∀ dis h audio ta n l,
       fullband_ready dis h → h !! audio = Some ta →
       shape ta = [n; 1; l] → fullband_input (shape ta) →
       ∃ embs h',
         DiscriminatorMelGAN.forward dis audio h = Ok (embs, h')
         ∧ last (lengths h' embs) = Some (Some (ceil_div l 256))).
Proof.
  split.
  - intros d q dis h bands tb n l Hready Hb Hs Hin.
    destruct (band_forward_total _ _ _ _ _ _ Hready Hb Hin) as (embs & h' & Hfwd).
    exists embs, h'. split; [done|].
    destruct (band_forward_Ok _ _ _ _ _ _ _ _ Hready Hb Hfwd)
      as (n' & l' & ys & new & Hs' & _ & _ & _ & _ & _ & Hsh).
    rewrite Hs in Hs'. injection Hs' as <- <-.
    eapply last_lengths_shapes; [done| |apply band_final_length].
    reflexivity.
  - intros dis h audio ta n l Hready Ha Hs Hin.
    destruct (fullband_forward_total _ _ _ _ Hready Ha Hin) as (embs & h' & Hfwd).
    exists embs, h'. split; [done|].
    destruct (fullband_forward_Ok _ _ _ _ _ _ Hready Ha Hfwd)
      as (n' & l' & ys & new & Hs' & _ & _ & _ & _ & _ & Hsh).
    rewrite Hs in Hs'. injection Hs' as <- <-.
    eapply last_lengths_shapes; [done| |apply fullband_final_length].
    reflexivity.
Qed.

Lemma final_length_by_dilation_witness :
  (∃ dis bands h tb,
     setup_band 1 4 [2; 4; 1024] [] = Ok ((dis, bands), h)
     ∧ h !! bands = Some tb ∧ shape tb = [2; 4; 1024]
     ∧ band_input 1 4 (shape tb)
     ∧ ∃ embs h',
         DiscriminatorEBEN.forward dis bands h = Ok (embs, h')
         ∧ last (lengths h' embs)
           = Some (Some (ceil_div (1024 + 4 * 1 - 2) 32 - 10 * (1 - 1))))
  ∧ (∃ dis audio h ta,
       setup_fullband [2; 1; 4096] [] = Ok ((dis, audio), h)
       ∧ h !! audio = Some ta ∧ shape ta = [2; 1; 4096]
       ∧ fullband_input (shape ta)
       ∧ ∃ embs h',
           DiscriminatorMelGAN.forward dis audio h = Ok (embs, h')
           ∧ last (lengths h' embs) = Some (Some (ceil_div 4096 256))).
Proof.
  split.
  - assert (∃ dis bands h, setup_band 1 4 [2; 4; 1024] [] = Ok ((dis, bands), h))
      as (dis & bands & h & E) by (eexists _, _, _; vm_compute; reflexivity).
    destruct (setup_band_ready _ _ _ _ _ _ _ E) as [Hready Hb].
    assert (band_input 1 4 [2; 4; 1024]) as Hin
      by (exists 2, 1024; repeat split; lia).
    eexists dis, bands, h, _.
    split; [exact E|]. split; [exact Hb|]. split; [reflexivity|].
    split; [exact Hin|].
    exact (proj1 final_length_by_dilation
             1 4 dis h bands _ 2 1024 Hready Hb eq_refl Hin).
  - assert (∃ dis audio h, setup_fullband [2; 1; 4096] [] = Ok ((dis, audio), h))
      as (dis & audio & h & E) by (eexists _, _, _; vm_compute; reflexivity).
    destruct (setup_fullband_ready _ _ _ _ _ E) as [Hready Ha].
    assert (fullband_input [2; 1; 4096]) as Hin
      by (exists 2, 4096; repeat split; lia).
    eexists dis, audio, h, _.
    split; [exact E|]. split; [exact Ha|]. split; [reflexivity|].
    split; [exact Hin|].
    exact (proj2 final_length_by_dilation
             dis h audio _ 2 4096 Hready Ha eq_refl Hin).
Defined.

(** C3, as the specification has it, fails: the band discriminator with
    the default dilation 1 and q = 4 maps an input of shape (2, 4, 1024) to
    a final tensor of shape (2, 1, 33), and ceil(1024 / 32) is 32. *)
Lemma band_final_length_is_not_ceil_32 :
  last <$> shapes_of (run_band 1 4 [2; 4; 1024]) = Ok (Some (Some [2; 1; 33]))
  ∧ ceil_div 1024 32 = 32
  ∧ 33 ≠ ceil_div 1024 32.
Proof. split; [|split]; vm_compute; congruence. Qed.

(** The first entry of the band discriminator: reflection padding by 1,
    then a convolution that pads by 1 again. *)
Lemma first_block_shape d q s s' :
  Module_shape
    (Sequential
       [ ReflectionPad1d 1;
         Conv1d {| in_channels := q; out_channels := 80; kernel_size := 3;
                   stride := 1; padding := 1; dilation := d; groups := q |} ();
         LeakyReLU 0.2 true ]) s = Ok s' ↔
  ∃ n l, s = [n; q; l] ∧ 0 < q ∧ 1 ≤ d ∧ 2 ≤ l ∧ 2 * d - 3 ≤ l
         ∧ s' = [n; 80; l + 4 - 2 * d].
Proof.
  split.
  - intros H. unfold_stack in H. invert_shapes H.
    eexists _, _. split; [done|]. repeat (split; [arith|]).
    do 3 f_equal. arith.
  - intros (n & l & -> & ? & ? & ? & ? & ->). unfold_stack.
    rewrite reflection_pad1d_shape_run by lia. unfold_stack.
    by rewrite (conv1d_shape_step _ n q (l + 2 * 1) (l + 4 - 2 * d))
      by (done || arith).
Qed.

(** C9.  The first entry of a band discriminator with dilation [d] maps an
    input of temporal length [l] to an output of temporal length
    [l + 4 - 2 d], whenever it returns, and it returns when the input has
    [q] channels, [2 <= l] and [2 d - 3 <= l]; so does element 1 of the
    sequence [forward] returns, which for the default dilation 1 is 2
    samples longer than the input. *)
Theorem first_block_output_length :
  ∀ d q dis h bands tb n c l,
    band_ready d q dis h → h !! bands = Some tb → shape tb = [n; c; l] →
    ∃ block,
      DiscriminatorEBEN.discriminator dis !! 0%nat = Some block
      ∧ Module_erase block
        = Sequential
            [ ReflectionPad1d 1;
              Conv1d {| in_channels := q; out_channels := 80;
                        kernel_size := 3; stride := 1; padding := 1;
                        dilation := d; groups := q |} ();
              LeakyReLU 0.2 true ]
      ∧ (∀ y h', Module_forward block bands h = Ok (y, h') →
                 lengths h' [y] = [Some (l + 4 - 2 * d)])
      ∧ (c = q → 0 < q → 1 ≤ d → 2 ≤ l → 2 * d - 3 ≤ l →
         ∃ y h', Module_forward block bands h = Ok (y, h'))
      ∧ (∀ embs h', DiscriminatorEBEN.forward dis bands h = Ok (embs, h') →
                    lengths h' embs !! 1%nat = Some (Some (l + 4 - 2 * d)))
      ∧ (d = 1 →
         ∀ embs h', DiscriminatorEBEN.forward dis bands h = Ok (embs, h') →
                    lengths h' embs !! 1%nat = Some (Some (l + 2))).
Proof.
  intros d q dis h bands tb n c l Hready Hb Hs.
  destruct (band_ready_blocks _ _ _ _ Hready) as (_ & He & Hps).
  destruct (DiscriminatorEBEN.discriminator dis) as [|block ms] eqn:Hdis;
    [done|].
  injection He as He _. apply Forall_cons in Hps as [Hp _].
  exists block. split; [done|]. split; [done|].
  assert (copies_first block = true) as Hcopy
    by (by rewrite <- copies_first_erase, He).
  pose proof (Module_forward_spec h block bands tb Hp Hcopy Hb) as Hspec.
  pose proof (Module_eval_shape h block tb Hp) as Hsh.
  rewrite He, Hs in Hsh.
  assert (∀ embs h', DiscriminatorEBEN.forward dis bands h = Ok (embs, h') →
                     lengths h' embs !! 1%nat = Some (Some (l + 4 - 2 * d)))
    as Hseq.
  { intros embs h' Hfwd.
    destruct (band_forward_Ok _ _ _ _ _ _ _ _ Hready Hb Hfwd)
      as (n' & l' & ys & new & Hs' & _ & _ & _ & _ & _ & Hshapes).
    rewrite Hs in Hs'. injection Hs' as <- <- <-.
    apply lengths_shapes in Hshapes. by rewrite Hshapes. }
  split; [|split; [|split; [done|]]].
  - intros y h' Hfwd. rewrite Hfwd in Hspec.
    destruct Hspec as (new & ty & -> & Hy & _ & Heval).
    rewrite Heval in Hsh. symmetry in Hsh.
    apply first_block_shape in Hsh as (n' & l' & [= <- <- <-] & _ & _ & _ & _ & Hty).
    unfold lengths, length_of. simpl. by rewrite Hy; simpl; rewrite Hty.
  - intros -> ? ? ? ?.
    destruct (Module_forward block bands h) as [[y h']|e]; [by eauto|].
    rewrite Hspec in Hsh. unfold fmap, result_fmap in Hsh.
    assert (Module_shape (Module_erase block) [n; q; l]
            = Ok [n; 80; l + 4 - 2 * d]) as Hok.
    { rewrite He. apply first_block_shape. by exists n, l. }
    rewrite He in Hok. congruence.
  - intros -> embs h' Hfwd. rewrite (Hseq _ _ Hfwd). do 2 f_equal. lia.
Qed.

Lemma first_block_output_length_witness :
  ∃ dis bands h tb,
    setup_band 3 4 [2; 4; 1024] [] = Ok ((dis, bands), h)
    ∧ h !! bands = Some tb ∧ shape tb = [2; 4; 1024]
    ∧ ∃ block y h',
        DiscriminatorEBEN.discriminator dis !! 0%nat = Some block
        ∧ Module_forward block bands h = Ok (y, h')
        ∧ lengths h' [y] = [Some 1022].
Proof.
  assert (∃ dis bands h, setup_band 3 4 [2; 4; 1024] [] = Ok ((dis, bands), h))
    as (dis & bands & h & E) by (eexists _, _, _; vm_compute; reflexivity).
  destruct (setup_band_ready _ _ _ _ _ _ _ E) as [Hready Hb].
  eexists dis, bands, h, _.
  split; [exact E|]. split; [exact Hb|]. split; [reflexivity|].
  destruct (first_block_output_length 3 4 dis h bands _ 2 4 1024
              Hready Hb eq_refl) as (block & Hblock & _ & Hlen & Hrun & _).
  destruct Hrun as (y & h' & Hfwd); [reflexivity|lia..|].
  exists block, y, h'. split; [exact Hblock|]. split; [exact Hfwd|].
  exact (Hlen y h' Hfwd).
Defined.

(** ** Claims about construction *)

(** C7.  Constructing a band discriminator, and with it the ensemble,
    raises [ValueError] whenever [q] does not divide each of 80, 160, 320,
    480, 640 and 960; for a positive number of bands [q] that divides
    them, both constructions succeed. *)
Theorem construction_needs_q_dividing_channels :
  ∀ d q h,
    (¬ divides_channels q →
     DiscriminatorEBEN.init d q h = Err ValueError
     ∧ DiscriminatorMultiScales.init q h = Err ValueError)
    ∧ (0 < q → divides_channels q →
       (∃ dis h', DiscriminatorEBEN.init d q h = Ok (dis, h'))
       ∧ (∃ dis h', DiscriminatorMultiScales.init q h = Ok (dis, h'))).
Proof.
  intros d q h.
  pose proof (band_init_spec d q h) as Hband.
  pose proof (ensemble_init_spec q h) as Hens.
  split.
  - intros Hndiv.
    destruct (DiscriminatorEBEN.init d q h) as [[dis h']|e];
      [tauto|destruct Hband as [-> _]].
    destruct (DiscriminatorMultiScales.init q h) as [[dis h']|e];
      [tauto|destruct Hens as [-> _]].
    done.
  - intros Hq Hdiv.
    destruct (DiscriminatorEBEN.init d q h) as [[dis h']|e]; [|tauto].
    destruct (DiscriminatorMultiScales.init q h) as [[dis' h'']|e]; [|tauto].
    split; eexists _, _; reflexivity.
Qed.

Lemma construction_needs_q_dividing_channels_witness :
  (¬ divides_channels 3
   ∧ DiscriminatorEBEN.init 1 3 [] = Err ValueError
   ∧ DiscriminatorMultiScales.init 3 [] = Err ValueError)
  ∧ (0 < 4 ∧ divides_channels 4
     ∧ (∃ dis h', DiscriminatorEBEN.init 1 4 [] = Ok (dis, h'))
     ∧ (∃ dis h', DiscriminatorMultiScales.init 4 [] = Ok (dis, h'))).
Proof.
  assert (¬ divides_channels 3) as H3.
  { intros [[k Hk] _]. lia. }
  assert (divides_channels 4) as H4.
  { repeat split; [exists 20|exists 40|exists 80|exists 120|exists 160
                   |exists 240]; reflexivity. }
  split.
  - split; [exact H3|].
    exact (proj1 (construction_needs_q_dividing_channels 1 3 []) H3).
  - split; [reflexivity|]. split; [exact H4|].
    exact (proj2 (construction_needs_q_dividing_channels 1 4 []) eq_refl H4).
Defined.

(** ** Claims about the store *)

(** C10.  A call of either discriminator or of the ensemble only adds
    objects to the store: every object that existed before the call, the
    inputs among them, holds the tensor it held before.  Element 0 of each
    returned sequence is the input object itself.  The reason is that the
    first layer of every list entry creates a new tensor, so that the
    in-place activations only ever overwrite tensors created inside the
    entry. *)
Theorem evaluate_leaves_inputs_unchanged :
  (∀ d q dis h bands tb embs h',
     band_ready d q dis h → h !! bands = Some tb →
     DiscriminatorEBEN.forward dis bands h = Ok (embs, h') →
     (∃ new, h' = h ++ new)
     ∧ embs !! 0%nat = Some bands ∧ h' !! bands = Some tb)
  ∧ (∀ dis h audio ta embs h',
       fullband_ready dis h → h !! audio = Some ta →
       DiscriminatorMelGAN.forward dis audio h = Ok (embs, h') →
       (∃ new, h' = h ++ new)
       ∧ embs !! 0%nat = Some audio ∧ h' !! audio = Some ta)
  ∧ (∀ q dis h bands audio tb ta embs h',
       ensemble_ready q dis h →
       h !! bands = Some tb → h !! audio = Some ta →
       DiscriminatorMultiScales.forward dis bands audio h = Ok (embs, h') →
       (∃ new, h' = h ++ new)
       ∧ head <$> embs = [Some bands; Some bands; Some bands; Some audio]
       ∧ h' !! bands = Some tb ∧ h' !! audio = Some ta)
  ∧ (∀ d q, forallb copies_first (DiscriminatorEBEN.layers d q) = true)
  ∧ forallb copies_first DiscriminatorMelGAN.layers = true.
Proof.
  split; [|split; [|split; [|split]]].
  - intros d q dis h bands tb embs h' Hready Hb Hfwd.
    destruct (band_forward_Ok _ _ _ _ _ _ _ _ Hready Hb Hfwd)
      as (n & l & ys & new & _ & _ & -> & -> & _).
    split; [by exists new|]. split; [done|]. by apply lookup_app_l_Some.
  - intros dis h audio ta embs h' Hready Ha Hfwd.
    destruct (fullband_forward_Ok _ _ _ _ _ _ Hready Ha Hfwd)
      as (n & l & ys & new & _ & _ & -> & -> & _).
    split; [by exists new|]. split; [done|]. by apply lookup_app_l_Some.
  - intros q dis h bands audio tb ta embs h' Hready Hb Ha Hfwd.
    destruct (ensemble_forward_Ok _ _ _ _ _ _ _ _ _ Hready Hb Ha Hfwd)
      as (d1 & d2 & d3 & e1 & e2 & e3 & e4 & t1 & t2 & t3 & t4 & new & nb & lb
            & na & la & _ & -> & -> & _).
    split; [by exists new|]. split; [done|].
    split; by apply lookup_app_l_Some.
  - done.
  - done.
Qed.

Lemma evaluate_leaves_inputs_unchanged_witness :
  ∃ dis bands audio h tb ta embs h',
    setup_ensemble 4 [2; 4; 1024] [2; 1; 4096] [] = Ok ((dis, bands, audio), h)
    ∧ h !! bands = Some tb ∧ h !! audio = Some ta
    ∧ DiscriminatorMultiScales.forward dis bands audio h = Ok (embs, h')
    ∧ (∃ new, h' = h ++ new)
    ∧ head <$> embs = [Some bands; Some bands; Some bands; Some audio]
    ∧ h' !! bands = Some tb ∧ h' !! audio = Some ta.
Proof.
  assert (∃ dis bands audio h embs h',
            setup_ensemble 4 [2; 4; 1024] [2; 1; 4096] []
            = Ok ((dis, bands, audio), h)
            ∧ DiscriminatorMultiScales.forward dis bands audio h
              = Ok (embs, h'))
    as (dis & bands & audio & h & embs & h' & E & F)
    by (eexists _, _, _, _, _, _; split; vm_compute; reflexivity).
  destruct (setup_ensemble_ready _ _ _ _ _ _ _ _ E) as (Hready & Hb & Ha).
  eexists dis, bands, audio, h, _, _, embs, h'.
  split; [exact E|]. split; [exact Hb|]. split; [exact Ha|].
  split; [exact F|].
  exact (proj1 (proj2 (proj2 evaluate_leaves_inputs_unchanged))
           4 dis h bands audio _ _ embs h' Hready Hb Ha F).
Defined.

(** An in-place activation called directly on an object of the store
    does change it: the store model tells the two cases apart. *)
Example inplace_activation_overwrites_its_input :
  Module_forward (Single (LeakyReLU 0.2 true)) 0%nat
    [{| shape := [1; 1; 2]; data := Buffer 0 |}]
  = Ok (0%nat, [{| shape := [1; 1; 2]; data := Leaky 0.2 (Buffer 0) |}]).
Proof. reflexivity. Qed.

(** ** Claims about the ensemble *)

(** C5.  A successful call of the ensemble returns exactly four sequences:
    those of the band discriminators constructed with dilation 1, 2 and 3,
    in this order, each called on the object [bands], which holds the same
    tensor at each of the three calls, and then that of the full-band
    discriminator called on the object [audio]. *)
Theorem ensemble_order_and_inputs :
  ∀ q dis h bands audio tb ta embs h',
    ensemble_ready q dis h →
    h !! bands = Some tb → h !! audio = Some ta →
    DiscriminatorMultiScales.forward dis bands audio h = Ok (embs, h') →
    ∃ d1 d2 d3 e1 e2 e3 e4 h1 h2 h3,
      DiscriminatorMultiScales.pqmf_discriminators dis = [d1; d2; d3]
      ∧ band_ready 1 q d1 h ∧ DiscriminatorEBEN.dilation d1 = 1
      ∧ band_ready 2 q d2 h ∧ DiscriminatorEBEN.dilation d2 = 2
      ∧ band_ready 3 q d3 h ∧ DiscriminatorEBEN.dilation d3 = 3
      ∧ fullband_ready (DiscriminatorMultiScales.melgan_discriminator dis) h
      ∧ embs = [e1; e2; e3; e4]
      ∧ DiscriminatorEBEN.forward d1 bands h = Ok (e1, h1)
      ∧ h1 !! bands = Some tb
      ∧ DiscriminatorEBEN.forward d2 bands h1 = Ok (e2, h2)
      ∧ h2 !! bands = Some tb
      ∧ DiscriminatorEBEN.forward d3 bands h2 = Ok (e3, h3)
      ∧ h3 !! audio = Some ta
      ∧ DiscriminatorMelGAN.forward
          (DiscriminatorMultiScales.melgan_discriminator dis) audio h3
        = Ok (e4, h').
Proof.
  intros q dis h bands audio tb ta embs h' Hready Hb Ha Hfwd.
  pose proof (ensemble_forward_spec q dis h bands audio tb ta Hready Hb Ha)
    as Hspec.
  rewrite Hfwd in Hspec.
  destruct Hspec as (d1 & d2 & d3 & e1 & e2 & e3 & e4 & n1 & n2 & n3 & n4 & Hp
                       & R1 & R2 & R3 & R4 & -> & E1 & E2 & E3 & E4 & ->).
  exists d1, d2, d3, e1, e2, e3, e4, (h ++ n1), (h ++ n1 ++ n2),
    (h ++ n1 ++ n2 ++ n3).
  split; [done|].
  split; [done|]. split; [by apply (band_ready_blocks 1 q d1 h)|].
  split; [done|]. split; [by apply (band_ready_blocks 2 q d2 h)|].
  split; [done|]. split; [by apply (band_ready_blocks 3 q d3 h)|].
  do 3 (split; [done|]). split; [by apply lookup_app_l_Some|].
  split; [done|]. split; [by apply lookup_app_l_Some|].
  split; [done|]. split; [by apply lookup_app_l_Some|]. done.
Qed.

Lemma ensemble_order_and_inputs_witness :
  ∃ dis bands audio h tb ta embs h',
    setup_ensemble 4 [2; 4; 1024] [2; 1; 4096] [] = Ok ((dis, bands, audio), h)
    ∧ h !! bands = Some tb ∧ h !! audio = Some ta
    ∧ DiscriminatorMultiScales.forward dis bands audio h = Ok (embs, h')
    ∧ ∃ d1 d2 d3 e1 e2 e3 e4,
        DiscriminatorMultiScales.pqmf_discriminators dis = [d1; d2; d3]
        ∧ DiscriminatorEBEN.dilation d1 = 1
        ∧ DiscriminatorEBEN.dilation d2 = 2
        ∧ DiscriminatorEBEN.dilation d3 = 3
        ∧ embs = [e1; e2; e3; e4].
Proof.
  assert (∃ dis bands audio h embs h',
            setup_ensemble 4 [2; 4; 1024] [2; 1; 4096] []
            = Ok ((dis, bands, audio), h)
            ∧ DiscriminatorMultiScales.forward dis bands audio h
              = Ok (embs, h'))
    as (dis & bands & audio & h & embs & h' & E & F)
    by (eexists _, _, _, _, _, _; split; vm_compute; reflexivity).
  destruct (setup_ensemble_ready _ _ _ _ _ _ _ _ E) as (Hready & Hb & Ha).
  eexists dis, bands, audio, h, _, _, embs, h'.
  split; [exact E|]. split; [exact Hb|]. split; [exact Ha|].
  split; [exact F|].
  destruct (ensemble_order_and_inputs 4 dis h bands audio _ _ embs h'
              Hready Hb Ha F)
    as (d1 & d2 & d3 & e1 & e2 & e3 & e4 & h1 & h2 & h3 & Hp & _ & D1 & _ & D2
          & _ & D3 & _ & He & _).
  exists d1, d2, d3, e1, e2, e3, e4.
  split; [exact Hp|]. split; [exact D1|]. split; [exact D2|].
  split; [exact D3|]. exact He.
Defined.

Lemma shapes_app (h n : heap) ls ss :
  shapes h ls = Some <$> ss → shapes (h ++ n) ls = Some <$> ss.
Proof.
  unfold shapes. revert ss.
  induction ls as [|l ls IH]; intros [|s ss]; simpl; try done.
  intros [= Hl Hls]. f_equal; [|by apply IH].
  destruct (h !! l) as [t|] eqn:E; [|done].
  by rewrite (lookup_app_l_Some _ _ _ _ E).
Qed.

Lemma shapes_eq_tensors (h : heap) ls :
  shapes h ls = (λ t : option Tensor, shape <$> t) <$> tensors h ls.
Proof. unfold shapes, tensors. by rewrite <- list_fmap_compose. Qed.

(** The shapes of the four sequences a successful call of the ensemble
    returns, read in the store it leaves. *)
Lemma ensemble_forward_shapes q dis h bands audio tb ta embs h' :
  ensemble_ready q dis h → h !! bands = Some tb → h !! audio = Some ta →
  DiscriminatorMultiScales.forward dis bands audio h = Ok (embs, h') →
  ∃ nb lb na la,
    shape tb = [nb; q; lb] ∧ shape ta = [na; 1; la]
    ∧ shapes h' <$> embs
      = [ Some <$> [nb; q; lb] :: band_shapes 1 nb lb;
          Some <$> [nb; q; lb] :: band_shapes 2 nb lb;
          Some <$> [nb; q; lb] :: band_shapes 3 nb lb;
          Some <$> [na; 1; la] :: fullband_shapes na la ].
Proof.
  intros Hready Hb Ha Hfwd.
  destruct (ensemble_forward_Ok _ _ _ _ _ _ _ _ _ Hready Hb Ha Hfwd)
    as (d1 & d2 & d3 & e1 & e2 & e3 & e4 & t1 & t2 & t3 & t4 & new & nb & lb
          & na & la & _ & -> & -> & Hsb & Hsa & _ & _ & _ & _ & _ & _
          & S1 & S2 & S3 & S4 & Hts).
  exists nb, lb, na, la. do 2 (split; [done|]).
  assert (shapes (h ++ new) <$> [bands :: e1; bands :: e2; bands :: e3; audio :: e4]
          = (λ ts : list (option Tensor),
               (λ t : option Tensor, shape <$> t) <$> ts)
              <$> (tensors (h ++ new)
                     <$> [bands :: e1; bands :: e2; bands :: e3; audio :: e4]))
    as -> by (by rewrite <- list_fmap_compose; apply list_fmap_ext;
                intros; apply shapes_eq_tensors).
  rewrite Hts. cbn [fmap list_fmap option_fmap option_map].
  rewrite <- !list_fmap_compose.
  by rewrite !(list_fmap_compose shape Some), S1, S2, S3, S4, Hsb, Hsa.
Qed.

(** C2, as the code has it.  With q = 4, bands of shape (2, 4, 1024) and
    audio of shape (2, 1, 4096), the ensemble returns four sequences; the
    first three have 9 tensors each and end in tensors of shape (2, 1, 33),
    (2, 1, 23) and (2, 1, 13) for dilation 1, 2 and 3; the fourth has 8
    tensors and ends in a tensor of shape (2, 1, 16). *)
Theorem ensemble_scenario_shapes :
  ∀ dis h bands audio tb ta,
    ensemble_ready 4 dis h →
    h !! bands = Some tb → h !! audio = Some ta →
    shape tb = [2; 4; 1024] → shape ta = [2; 1; 4096] →
    ∃ e1 e2 e3 e4 h',
      DiscriminatorMultiScales.forward dis bands audio h
      = Ok ([e1; e2; e3; e4], h')
      ∧ length e1 = 9%nat ∧ last (shapes h' e1) = Some (Some [2; 1; 33])
      ∧ length e2 = 9%nat ∧ last (shapes h' e2) = Some (Some [2; 1; 23])
      ∧ length e3 = 9%nat ∧ last (shapes h' e3) = Some (Some [2; 1; 13])
      ∧ length e4 = 8%nat ∧ last (shapes h' e4) = Some (Some [2; 1; 16]).
Proof.
  intros dis h bands audio tb ta Hready Hb Ha Hsb Hsa.
  destruct (ensemble_forward_total 4 dis h bands audio tb ta Hready Hb Ha)
    as (embs & h' & Hfwd).
  { rewrite Hsb. exists 2, 1024. repeat split; lia. }
  { rewrite Hsa. exists 2, 4096. repeat split; lia. }
  destruct (ensemble_forward_shapes _ _ _ _ _ _ _ _ _ Hready Hb Ha Hfwd)
    as (nb & lb & na & la & Hsb' & Hsa' & Hsh).
  rewrite Hsb in Hsb'. rewrite Hsa in Hsa'.
  injection Hsb' as <- <-. injection Hsa' as <- <-.
  destruct embs as [|e1 [|e2 [|e3 [|e4 [|]]]]]; try done.
  injection Hsh as H1 H2 H3 H4.
  exists e1, e2, e3, e4, h'. split; [done|].
  assert (∀ e ss, shapes h' e = ss → length e = length ss) as Hlen.
  { intros e ss <-. unfold shapes. by rewrite length_fmap. }
  rewrite (Hlen _ _ H1), (Hlen _ _ H2), (Hlen _ _ H3), (Hlen _ _ H4).
  rewrite H1, H2, H3, H4. vm_compute. done.
Qed.

Lemma ensemble_scenario_shapes_witness :
  ∃ dis bands audio h tb ta,
    setup_ensemble 4 [2; 4; 1024] [2; 1; 4096] [] = Ok ((dis, bands, audio), h)
    ∧ h !! bands = Some tb ∧ h !! audio = Some ta
    ∧ shape tb = [2; 4; 1024] ∧ shape ta = [2; 1; 4096]
    ∧ ∃ e1 e2 e3 e4 h',
        DiscriminatorMultiScales.forward dis bands audio h
        = Ok ([e1; e2; e3; e4], h')
        ∧ length e1 = 9%nat ∧ last (shapes h' e1) = Some (Some [2; 1; 33])
        ∧ length e2 = 9%nat ∧ last (shapes h' e2) = Some (Some [2; 1; 23])
        ∧ length e3 = 9%nat ∧ last (shapes h' e3) = Some (Some [2; 1; 13])
        ∧ length e4 = 8%nat ∧ last (shapes h' e4) = Some (Some [2; 1; 16]).
Proof.
  assert (∃ dis bands audio h,
            setup_ensemble 4 [2; 4; 1024] [2; 1; 4096] []
            = Ok ((dis, bands, audio), h))
    as (dis & bands & audio & h & E)
    by (eexists _, _, _, _; vm_compute; reflexivity).
  destruct (setup_ensemble_ready _ _ _ _ _ _ _ _ E) as (Hready & Hb & Ha).
  eexists dis, bands, audio, h, _, _.
  split; [exact E|]. split; [exact Hb|]. split; [exact Ha|].
  split; [reflexivity|]. split; [reflexivity|].
  exact (ensemble_scenario_shapes dis h bands audio _ _ Hready Hb Ha
           eq_refl eq_refl).
Defined.

(** C2, as the specification has it, fails: in this scenario the first
    sequence ends in a tensor of shape (2, 1, 33), not (2, 1, 32), and the
    second and third in (2, 1, 23) and (2, 1, 13). *)
Lemma ensemble_scenario_is_not_32 :
  fmap (M:=list) last <$>
    shapes_of_all (run_ensemble 4 [2; 4; 1024] [2; 1; 4096])
  = Ok [ Some (Some [2; 1; 33]); Some (Some [2; 1; 23]);
         Some (Some [2; 1; 13]); Some (Some [2; 1; 16]) ]
  ∧ [2; 1; 33] ≠ [2; 1; 32].
Proof. split; [vm_compute; reflexivity|congruence]. Qed.

(** C1, as the code has it.  Two band discriminators that differ only in
    their dilation, called on the same input tensor of temporal length
    [l], return sequences of the same number of tensors in which
    corresponding tensors have the same batch size and the same channel
    count.  The temporal lengths depend on the dilation: element 1 has
    length [l + 4 - 2 d] and the last element has length
    ceil((l + 4 d - 2) / 32) - 10 (d - 1). *)
Theorem dilation_keeps_batch_and_channels :
  ∀ q d1 d2 dis1 dis2 h1 h2 b1 b2 tb n c l embs1 embs2 h1' h2',
    band_ready d1 q dis1 h1 → band_ready d2 q dis2 h2 →
    h1 !! b1 = Some tb → h2 !! b2 = Some tb → shape tb = [n; c; l] →
    DiscriminatorEBEN.forward dis1 b1 h1 = Ok (embs1, h1') →
    DiscriminatorEBEN.forward dis2 b2 h2 = Ok (embs2, h2') →
    length embs1 = length embs2
    ∧ (λ s : option (list Z), take 2 <$> s) <$> shapes h1' embs1
      = (λ s : option (list Z), take 2 <$> s) <$> shapes h2' embs2
    ∧ lengths h1' embs1 !! 1%nat = Some (Some (l + 4 - 2 * d1))
    ∧ lengths h2' embs2 !! 1%nat = Some (Some (l + 4 - 2 * d2))
    ∧ last (lengths h1' embs1)
      = Some (Some (ceil_div (l + 4 * d1 - 2) 32 - 10 * (d1 - 1)))
    ∧ last (lengths h2' embs2)
      = Some (Some (ceil_div (l + 4 * d2 - 2) 32 - 10 * (d2 - 1))).
Proof.
  intros q d1 d2 dis1 dis2 h1 h2 b1 b2 tb n c l embs1 embs2 h1' h2'
    R1 R2 Hb1 Hb2 Hs F1 F2.
  destruct (band_forward_Ok _ _ _ _ _ _ _ _ R1 Hb1 F1)
    as (n1 & l1 & ys1 & new1 & Hs1 & _ & _ & _ & _ & _ & Hsh1).
  destruct (band_forward_Ok _ _ _ _ _ _ _ _ R2 Hb2 F2)
    as (n2 & l2 & ys2 & new2 & Hs2 & _ & _ & _ & _ & _ & Hsh2).
  rewrite Hs in Hs1, Hs2. injection Hs1 as <- <- <-. injection Hs2 as <- <-.
  assert (∀ (h : heap) e ss, shapes h e = ss → length e = length ss) as Hlen.
  { intros h e ss <-. unfold shapes. by rewrite length_fmap. }
  split; [by rewrite (Hlen _ _ _ Hsh1), (Hlen _ _ _ Hsh2)|].
  split; [by rewrite Hsh1, Hsh2|].
  split; [by rewrite (lengths_shapes _ _ _ Hsh1)|].
  split; [by rewrite (lengths_shapes _ _ _ Hsh2)|].
  split.
  - eapply last_lengths_shapes; [done| |apply band_final_length]. reflexivity.
  - eapply last_lengths_shapes; [done| |apply band_final_length]. reflexivity.
Qed.

Lemma dilation_keeps_batch_and_channels_witness :
  ∃ dis1 dis2 b1 b2 h1 h2 tb embs1 embs2 h1' h2',
    setup_band 1 4 [2; 4; 1024] [] = Ok ((dis1, b1), h1)
    ∧ setup_band 2 4 [2; 4; 1024] [] = Ok ((dis2, b2), h2)
    ∧ h1 !! b1 = Some tb ∧ h2 !! b2 = Some tb ∧ shape tb = [2; 4; 1024]
    ∧ DiscriminatorEBEN.forward dis1 b1 h1 = Ok (embs1, h1')
    ∧ DiscriminatorEBEN.forward dis2 b2 h2 = Ok (embs2, h2')
    ∧ length embs1 = length embs2
    ∧ (λ s : option (list Z), take 2 <$> s) <$> shapes h1' embs1
      = (λ s : option (list Z), take 2 <$> s) <$> shapes h2' embs2.
Proof.
  assert (∃ dis1 b1 h1 embs1 h1',
            setup_band 1 4 [2; 4; 1024] [] = Ok ((dis1, b1), h1)
            ∧ b1 = 24%nat
            ∧ DiscriminatorEBEN.forward dis1 b1 h1 = Ok (embs1, h1'))
    as (dis1 & b1 & h1 & embs1 & h1' & E1 & B1 & F1)
    by (eexists _, _, _, _, _; split; [|split]; vm_compute; reflexivity).
  assert (∃ dis2 b2 h2 embs2 h2',
            setup_band 2 4 [2; 4; 1024] [] = Ok ((dis2, b2), h2)
            ∧ b2 = 24%nat
            ∧ DiscriminatorEBEN.forward dis2 b2 h2 = Ok (embs2, h2'))
    as (dis2 & b2 & h2 & embs2 & h2' & E2 & B2 & F2)
    by (eexists _, _, _, _, _; split; [|split]; vm_compute; reflexivity).
  destruct (setup_band_ready _ _ _ _ _ _ _ E1) as [R1 Hb1].
  destruct (setup_band_ready _ _ _ _ _ _ _ E2) as [R2 Hb2].
  rewrite B2 in Hb2. rewrite <- B1 in Hb2. rewrite B2 in E2, F2.
  rewrite <- B1 in E2, F2.
  eexists dis1, dis2, b1, b1, h1, h2, _, embs1, embs2, h1', h2'.
  split; [exact E1|]. split; [exact E2|]. split; [exact Hb1|].
  split; [exact Hb2|]. split; [reflexivity|]. split; [exact F1|].
  split; [exact F2|].
  destruct (dilation_keeps_batch_and_channels 4 1 2 dis1 dis2 h1 h2 b1 b1 _
              2 4 1024 embs1 embs2 h1' h2' R1 R2 Hb1 Hb2 eq_refl F1 F2)
    as (Hlen & Hbc & _).
  split; [exact Hlen|exact Hbc].
Defined.

(** C1, as the specification has it, fails: in the ensemble with q = 4 on
    bands of shape (2, 4, 1024), element 1 of the three band sequences has
    shape (2, 80, 1026), (2, 80, 1024) and (2, 80, 1022). *)
Lemma dilation_changes_temporal_lengths :
  fmap (M:=list) (λ e : list (option (list Z)), e !! 1%nat) <$>
    shapes_of_all (run_ensemble 4 [2; 4; 1024] [2; 1; 4096])
  = Ok [ Some (Some [2; 80; 1026]); Some (Some [2; 80; 1024]);
         Some (Some [2; 80; 1022]); Some (Some [2; 16; 4096]) ]
  ∧ [2; 80; 1026] ≠ [2; 80; 1024] ∧ [2; 80; 1024] ≠ [2; 80; 1022].
Proof. split; [vm_compute; reflexivity|split; congruence]. Qed.

Lemma tensors_app_all (h n : heap) (es : list (list nat))
    (tss : list (list Tensor)) :
  tensors h <$> es = (λ ts : list Tensor, Some <$> ts) <$> tss →
  tensors (h ++ n) <$> es = (λ ts : list Tensor, Some <$> ts) <$> tss.
Proof.
  revert tss. induction es as [|e es IH]; intros [|ts tss]; simpl; try done.
  intros [= He Hes]. f_equal; [by apply tensors_app|by apply IH].
Qed.

(** C8.  Calling the ensemble twice in a row on the same inputs, with no
    change of the parameters in between, returns sequences that hold the
    same tensors, shapes and payloads alike; the second call succeeds
    whenever the first does, and it leaves the tensors returned by the
    first call as they were.  The payloads are the terms that compute
    them, so this says that the second call applies the same kernels to
    the same operands; it does not speak of the arithmetic inside a
    kernel. *)
Theorem evaluate_twice_same_output :
  ∀ q dis h bands audio tb ta embs1 h1,
    ensemble_ready q dis h →
    h !! bands = Some tb → h !! audio = Some ta →
    DiscriminatorMultiScales.forward dis bands audio h = Ok (embs1, h1) →
    ∃ embs2 h2,
      DiscriminatorMultiScales.forward dis bands audio h1 = Ok (embs2, h2)
      ∧ tensors h2 <$> embs2 = tensors h1 <$> embs1
      ∧ tensors h2 <$> embs1 = tensors h1 <$> embs1
      ∧ Forall (Forall is_Some) (tensors h1 <$> embs1).
Proof.
  intros q dis h bands audio tb ta embs1 h1 Hready Hb Ha F1.
  destruct (ensemble_forward_Ok _ _ _ _ _ _ _ _ _ Hready Hb Ha F1)
    as (d1 & d2 & d3 & e1 & e2 & e3 & e4 & t1 & t2 & t3 & t4 & new & nb & lb
          & na & la & Hp & -> & -> & _ & _ & Hinb & Hina & V1 & V2 & V3 & V4
          & _ & _ & _ & _ & T).
  destruct (ensemble_ready_parts _ _ _ Hready)
    as (d1' & d2' & d3' & Hp' & R1 & R2 & R3 & R4).
  rewrite Hp in Hp'. injection Hp' as <- <- <-.
  assert (ensemble_ready q dis (h ++ new)) as Hready'.
  { destruct Hready as (h0 & h0' & ? & ?). exists h0, h0'.
    split; [done|]. rewrite length_app. lia. }
  pose proof (lookup_app_l_Some _ new _ _ Hb) as Hb'.
  pose proof (lookup_app_l_Some _ new _ _ Ha) as Ha'.
  destruct (ensemble_forward_total q dis (h ++ new) bands audio tb ta
              Hready' Hb' Ha' Hinb Hina) as (embs2 & h2 & F2).
  exists embs2, h2. split; [done|].
  destruct (ensemble_forward_Ok _ _ _ _ _ _ _ _ _ Hready' Hb' Ha' F2)
    as (c1 & c2 & c3 & e1' & e2' & e3' & e4' & t1' & t2' & t3' & t4' & new'
          & nb' & lb' & na' & la' & Hp' & -> & -> & _ & _ & _ & _ & V1' & V2'
          & V3' & V4' & _ & _ & _ & _ & T').
  rewrite Hp in Hp'. injection Hp' as <- <- <-.
  rewrite stack_eval_app in V1' by (by apply (band_ready_blocks 1 q)).
  rewrite stack_eval_app in V2' by (by apply (band_ready_blocks 2 q)).
  rewrite stack_eval_app in V3' by (by apply (band_ready_blocks 3 q)).
  rewrite stack_eval_app in V4' by (by apply fullband_ready_blocks).
  assert (t1' = t1) as -> by congruence.
  assert (t2' = t2) as -> by congruence.
  assert (t3' = t3) as -> by congruence.
  assert (t4' = t4) as -> by congruence.
  split; [by rewrite T, T'|]. split.
  - rewrite T.
    by apply (tensors_app_all _ _ _ [tb :: t1; tb :: t2; tb :: t3; ta :: t4]).
  - assert (∀ ts : list Tensor, Forall is_Some (Some <$> ts)) as HS
      by (intros; apply Forall_fmap, Forall_true; by eauto).
    rewrite T. repeat (apply Forall_cons; split; [apply HS|]).
    by apply Forall_nil.
Qed.

Lemma evaluate_twice_same_output_witness :
  ∃ dis bands audio h tb ta embs1 h1,
    setup_ensemble 4 [2; 4; 1024] [2; 1; 4096] [] = Ok ((dis, bands, audio), h)
    ∧ h !! bands = Some tb ∧ h !! audio = Some ta
    ∧ DiscriminatorMultiScales.forward dis bands audio h = Ok (embs1, h1)
    ∧ ∃ embs2 h2,
        DiscriminatorMultiScales.forward dis bands audio h1 = Ok (embs2, h2)
        ∧ tensors h2 <$> embs2 = tensors h1 <$> embs1.
Proof.
  assert (∃ dis bands audio h embs h',
            setup_ensemble 4 [2; 4; 1024] [2; 1; 4096] []
            = Ok ((dis, bands, audio), h)
            ∧ DiscriminatorMultiScales.forward dis bands audio h
              = Ok (embs, h'))
    as (dis & bands & audio & h & embs1 & h1 & E & F)
    by (eexists _, _, _, _, _, _; split; vm_compute; reflexivity).
  destruct (setup_ensemble_ready _ _ _ _ _ _ _ _ E) as (Hready & Hb & Ha).
  eexists dis, bands, audio, h, _, _, embs1, h1.
  split; [exact E|]. split; [exact Hb|]. split; [exact Ha|].
  split; [exact F|].
  destruct (evaluate_twice_same_output 4 dis h bands audio _ _ embs1 h1
              Hready Hb Ha F) as (embs2 & h2 & F2 & Heq & _).
  exists embs2, h2. split; [exact F2|exact Heq].
Defined.

(** * Further properties of the program *)

(** ** Which inputs are accepted *)







(** ** How the four calls of the ensemble compose *)

(** X4.  Each of the four sequences the ensemble returns holds the tensors
    that its discriminator returns when it is called alone, on the store
    before the ensemble call: the calls do not influence one another, and
    their order does not show in the result. *)
Theorem ensemble_calls_are_independent :
  ∀ q dis h bands audio tb ta embs h',
    ensemble_ready q dis h →
    h !! bands = Some tb → h !! audio = Some ta →
    DiscriminatorMultiScales.forward dis bands audio h = Ok (embs, h') →
    ∃ d1 d2 d3 r1 r2 r3 r4 k1 k2 k3 k4,
      DiscriminatorMultiScales.pqmf_discriminators dis = [d1; d2; d3]
      ∧ DiscriminatorEBEN.forward d1 bands h = Ok (r1, k1)
      ∧ DiscriminatorEBEN.forward d2 bands h = Ok (r2, k2)
      ∧ DiscriminatorEBEN.forward d3 bands h = Ok (r3, k3)
      ∧ DiscriminatorMelGAN.forward
          (DiscriminatorMultiScales.melgan_discriminator dis) audio h
        = Ok (r4, k4)
      ∧ tensors h' <$> embs
        = [tensors k1 r1; tensors k2 r2; tensors k3 r3; tensors k4 r4].
Proof.
  intros q dis h bands audio tb ta embs h' Hready Hb Ha Hfwd.
  destruct (ensemble_forward_Ok _ _ _ _ _ _ _ _ _ Hready Hb Ha Hfwd)
    as (d1 & d2 & d3 & e1 & e2 & e3 & e4 & t1 & t2 & t3 & t4 & new & nb & lb
          & na & la & Hp & -> & -> & _ & _ & Hinb & Hina & V1 & V2 & V3 & V4
          & _ & _ & _ & _ & T).
  destruct (ensemble_ready_parts _ _ _ Hready)
    as (d1' & d2' & d3' & Hp' & R1 & R2 & R3 & R4).
  rewrite Hp in Hp'. injection Hp' as <- <- <-.
  assert (∀ d dis' ts,
            1 ≤ d ≤ 3 → band_ready d q dis' h →
            stack_eval h (DiscriminatorEBEN.discriminator dis') tb = Ok ts →
            ∃ r k, DiscriminatorEBEN.forward dis' bands h = Ok (r, k)
                   ∧ tensors k r = Some <$> tb :: ts) as Hband.
  { intros d dis' ts Hd R V.
    destruct (band_forward_total d q dis' h bands tb R Hb) as (r & k & F).
    { eapply band_input_mono; [|done]. lia. }
    pose proof (band_forward_spec d q dis' h bands tb R Hb) as Hspec.
    rewrite F in Hspec.
    destruct Hspec as (? & ? & ? & ? & ts' & _ & _ & _ & _ & _ & _ & _ & Hts
                         & V' & _).
    exists r, k. split; [done|]. congruence. }
  destruct (Hband 1 d1 t1) as (r1 & k1 & F1 & T1); [lia|done..|].
  destruct (Hband 2 d2 t2) as (r2 & k2 & F2 & T2); [lia|done..|].
  destruct (Hband 3 d3 t3) as (r3 & k3 & F3 & T3); [lia|done..|].
  destruct (fullband_forward_total _ h audio ta R4 Ha Hina) as (r4 & k4 & F4).
  pose proof (fullband_forward_spec _ h audio ta R4 Ha) as Hspec.
  rewrite F4 in Hspec.
  destruct Hspec as (? & ? & ? & ? & ts' & _ & _ & _ & _ & T4 & V4' & _).
  exists d1, d2, d3, r1, r2, r3, r4, k1, k2, k3, k4.
  do 5 (split; [done|]).
  rewrite T, T1, T2, T3, T4. by replace ts' with t4 by congruence.
Qed.

Lemma ensemble_calls_are_independent_witness :
  ∃ dis bands audio h tb ta embs h',
    setup_ensemble 4 [2; 4; 1024] [2; 1; 4096] [] = Ok ((dis, bands, audio), h)
    ∧ h !! bands = Some tb ∧ h !! audio = Some ta
    ∧ DiscriminatorMultiScales.forward dis bands audio h = Ok (embs, h')
    ∧ ∃ d1 d2 d3 r1 r2 r3 r4 k1 k2 k3 k4,
        DiscriminatorMultiScales.pqmf_discriminators dis = [d1; d2; d3]
        ∧ DiscriminatorEBEN.forward d1 bands h = Ok (r1, k1)
        ∧ DiscriminatorEBEN.forward d2 bands h = Ok (r2, k2)
        ∧ DiscriminatorEBEN.forward d3 bands h = Ok (r3, k3)
        ∧ DiscriminatorMelGAN.forward
            (DiscriminatorMultiScales.melgan_discriminator dis) audio h
          = Ok (r4, k4)
        ∧ tensors h' <$> embs
          = [tensors k1 r1; tensors k2 r2; tensors k3 r3; tensors k4 r4].
Proof.
  assert (∃ dis bands audio h embs h',
            setup_ensemble 4 [2; 4; 1024] [2; 1; 4096] []
            = Ok ((dis, bands, audio), h)
            ∧ DiscriminatorMultiScales.forward dis bands audio h
              = Ok (embs, h'))
    as (dis & bands & audio & h & embs & h' & E & F)
    by (eexists _, _, _, _, _, _; split; vm_compute; reflexivity).
  destruct (setup_ensemble_ready _ _ _ _ _ _ _ _ E) as (Hready & Hb & Ha).
  eexists dis, bands, audio, h, _, _, embs, h'.
  split; [exact E|]. split; [exact Hb|]. split; [exact Ha|].
  split; [exact F|].
  exact (ensemble_calls_are_independent 4 dis h bands audio _ _ embs h'
           Hready Hb Ha F).
Defined.

(** ** The objects a call returns *)

(** Every object the successive list entries return was created by the
    call in which it is returned, after the outputs of the entries before
    it. *)
Lemma block_outputs_fresh ms x h ys h' :
  block_outputs ms x h ys h' →
  Forall (Module_params_in h) ms →
  forallb copies_first ms = true →
  is_Some (h !! x) →
  (length h ≤ length h')%nat
  ∧ Forall (λ y, (length h ≤ y < length h')%nat) ys
  ∧ NoDup ys.
Proof.
  induction 1 as [x h|m ms x h y h1 ys h' Hm _ IH]; intros Hps Hc [tx Hx].
  - split; [done|]. split; constructor.
  - apply Forall_cons in Hps as [Hpm Hps].
    cbn [forallb] in Hc. apply andb_true_iff in Hc as [Hcm Hc].
    pose proof (Module_forward_spec h m x tx Hpm Hcm Hx) as Hspec.
    rewrite Hm in Hspec. destruct Hspec as (n & ty & -> & Hy & Hle & _).
    destruct IH as (Hle' & Hys & Hnd); [|done|by eexists|].
    { eapply Forall_impl; [done|]. intros m'. apply Module_params_in_app. }
    apply lookup_lt_Some in Hy. rewrite length_app in *.
    split; [lia|]. split.
    + constructor; [lia|]. eapply Forall_impl; [done|]. simpl. lia.
    + constructor; [|done]. intros Hin.
      rewrite Forall_forall in Hys. apply Hys in Hin. lia.
Qed.

Lemma NoDup_app_ranges (b : nat) (l1 l2 : list nat) :
  NoDup l1 → NoDup l2 →
  Forall (λ y, (y < b)%nat) l1 → Forall (λ y, (b ≤ y)%nat) l2 →
  NoDup (l1 ++ l2).
Proof.
  intros N1 N2 H1 H2. apply NoDup_app. split; [done|]. split; [|done].
  intros y Hy1 Hy2. rewrite Forall_forall in H1, H2.
  apply H1 in Hy1. apply H2 in Hy2. lia.
Qed.

Lemma band_outputs_fresh d q dis h bands tb embs h' :
  band_ready d q dis h → h !! bands = Some tb →
  DiscriminatorEBEN.forward dis bands h = Ok (embs, h') →
  ∃ ys, embs = bands :: ys ∧ length ys = 8%nat
        ∧ (length h ≤ length h')%nat
        ∧ Forall (λ y, (length h ≤ y < length h')%nat) ys ∧ NoDup ys.
Proof.
  intros Hready Hx Hfwd.
  destruct (band_forward_Ok _ _ _ _ _ _ _ _ Hready Hx Hfwd)
    as (n & l & ys & new & _ & _ & -> & -> & Hblocks & Hlen & _).
  destruct (band_ready_blocks _ _ _ _ Hready) as (_ & He & Hps).
  exists ys. split; [done|]. split; [done|].
  apply (block_outputs_fresh _ _ _ _ _ Hblocks Hps); [|by eexists].
  rewrite <- forallb_copies_first_erase, He. done.
Qed.

Lemma fullband_outputs_fresh dis h audio ta embs h' :
  fullband_ready dis h → h !! audio = Some ta →
  DiscriminatorMelGAN.forward dis audio h = Ok (embs, h') →
  ∃ ys, embs = audio :: ys ∧ length ys = 7%nat
        ∧ (length h ≤ length h')%nat
        ∧ Forall (λ y, (length h ≤ y < length h')%nat) ys ∧ NoDup ys.
Proof.
  intros Hready Hx Hfwd.
  destruct (fullband_forward_Ok _ _ _ _ _ _ Hready Hx Hfwd)
    as (n & l & ys & new & _ & _ & -> & -> & Hblocks & Hlen & _).
  destruct (fullband_ready_blocks _ _ Hready) as (He & Hps).
  exists ys. split; [done|]. split; [done|].
  apply (block_outputs_fresh _ _ _ _ _ Hblocks Hps); [|by eexists].
  rewrite <- forallb_copies_first_erase, He. done.
Qed.

(** X5.  The nine tensors a band discriminator returns are nine distinct
    objects: the input object, which existed before the call, followed by
    eight objects the call created. *)
Theorem band_forward_returns_distinct_objects :
  ∀ d q dis h bands tb embs h',
    band_ready d q dis h → h !! bands = Some tb →
    DiscriminatorEBEN.forward dis bands h = Ok (embs, h') →
    NoDup embs ∧ length embs = 9%nat
    ∧ head embs = Some bands ∧ (bands < length h)%nat
    ∧ Forall (λ y, (length h ≤ y < length h')%nat) (tail embs).
Proof.
  intros d q dis h bands tb embs h' Hready Hx Hfwd.
  destruct (band_outputs_fresh _ _ _ _ _ _ _ _ Hready Hx Hfwd)
    as (ys & -> & Hlen & _ & Hys & Hnd).
  apply lookup_lt_Some in Hx.
  split; [|by rewrite length_cons, Hlen].
  constructor; [|done]. intros Hin.
  rewrite Forall_forall in Hys. apply Hys in Hin. lia.
Qed.

Lemma band_forward_returns_distinct_objects_witness :
  ∃ dis bands h embs h',
    setup_band 2 4 [2; 4; 1024] [] = Ok ((dis, bands), h)
    ∧ DiscriminatorEBEN.forward dis bands h = Ok (embs, h')
    ∧ NoDup embs ∧ length embs = 9%nat
    ∧ head embs = Some bands ∧ (bands < length h)%nat
    ∧ Forall (λ y, (length h ≤ y < length h')%nat) (tail embs).
Proof.
  assert (∃ dis bands h embs h',
            setup_band 2 4 [2; 4; 1024] [] = Ok ((dis, bands), h)
            ∧ DiscriminatorEBEN.forward dis bands h = Ok (embs, h'))
    as (dis & bands & h & embs & h' & E & F)
    by (eexists _, _, _, _, _; split; vm_compute; reflexivity).
  destruct (setup_band_ready _ _ _ _ _ _ _ E) as (Hready & Hb).
  exists dis, bands, h, embs, h'.
  split; [exact E|]. split; [exact F|].
  exact (band_forward_returns_distinct_objects 2 4 dis h bands _ embs h'
           Hready Hb F).
Defined.

(** X6.  The eight tensors the full-band discriminator returns are eight
    distinct objects: the input object followed by seven objects the call
    created. *)
Theorem fullband_forward_returns_distinct_objects :
  ∀ dis h audio ta embs h',
    fullband_ready dis h → h !! audio = Some ta →
    DiscriminatorMelGAN.forward dis audio h = Ok (embs, h') →
    NoDup embs ∧ length embs = 8%nat
    ∧ head embs = Some audio ∧ (audio < length h)%nat
    ∧ Forall (λ y, (length h ≤ y < length h')%nat) (tail embs).
Proof.
  intros dis h audio ta embs h' Hready Hx Hfwd.
  destruct (fullband_outputs_fresh _ _ _ _ _ _ Hready Hx Hfwd)
    as (ys & -> & Hlen & _ & Hys & Hnd).
  apply lookup_lt_Some in Hx.
  split; [|by rewrite length_cons, Hlen].
  constructor; [|done]. intros Hin.
  rewrite Forall_forall in Hys. apply Hys in Hin. lia.
Qed.

Lemma fullband_forward_returns_distinct_objects_witness :
  ∃ dis audio h embs h',
    setup_fullband [2; 1; 4096] [] = Ok ((dis, audio), h)
    ∧ DiscriminatorMelGAN.forward dis audio h = Ok (embs, h')
    ∧ NoDup embs ∧ length embs = 8%nat
    ∧ head embs = Some audio ∧ (audio < length h)%nat
    ∧ Forall (λ y, (length h ≤ y < length h')%nat) (tail embs).
Proof.
  assert (∃ dis audio h embs h',
            setup_fullband [2; 1; 4096] [] = Ok ((dis, audio), h)
            ∧ DiscriminatorMelGAN.forward dis audio h = Ok (embs, h'))
    as (dis & audio & h & embs & h' & E & F)
    by (eexists _, _, _, _, _; split; vm_compute; reflexivity).
  destruct (setup_fullband_ready _ _ _ _ _ E) as (Hready & Ha).
  exists dis, audio, h, embs, h'.
  split; [exact E|]. split; [exact F|].
  exact (fullband_forward_returns_distinct_objects dis h audio _ embs h'
           Hready Ha F).
Defined.

(** X7.  The ensemble returns the object [bands] at the head of its first
    three sequences and [audio] at the head of the fourth; the 31 block
    outputs behind them are pairwise distinct objects, all created by the
    call: no discriminator returns an object of another one. *)
Theorem ensemble_forward_returns_distinct_objects :
  ∀ q dis h bands audio tb ta embs h',
    ensemble_ready q dis h →
    h !! bands = Some tb → h !! audio = Some ta →
    DiscriminatorMultiScales.forward dis bands audio h = Ok (embs, h') →
    head <$> embs = [Some bands; Some bands; Some bands; Some audio]
    ∧ NoDup (concat (tail <$> embs))
    ∧ length (concat (tail <$> embs)) = 31%nat
    ∧ Forall (λ y, (length h ≤ y < length h')%nat) (concat (tail <$> embs)).
Proof.
  intros q dis h bands audio tb ta embs h' Hready Hb Ha Hfwd.
  pose proof (ensemble_forward_spec q dis h bands audio tb ta Hready Hb Ha)
    as Hspec.
  rewrite Hfwd in Hspec.
  destruct Hspec as (d1 & d2 & d3 & e1 & e2 & e3 & e4 & n1 & n2 & n3 & n4 & _
                       & R1 & R2 & R3 & R4 & -> & F1 & F2 & F3 & F4 & ->).
  assert (∀ n, (h ++ n) !! bands = Some tb) as Hb'
    by (intros n; by apply lookup_app_l_Some).
  assert (∀ n, (h ++ n) !! audio = Some ta) as Ha'
    by (intros n; by apply lookup_app_l_Some).
  assert (∀ d dis' n, band_ready d q dis' h → band_ready d q dis' (h ++ n))
    as Hle.
  { intros d dis' n. apply band_ready_le. rewrite length_app. lia. }
  destruct (band_outputs_fresh _ _ _ _ _ _ _ _ R1 Hb F1)
    as (y1 & -> & L1 & _ & Y1 & N1).
  destruct (band_outputs_fresh _ _ _ _ _ _ _ _ (Hle _ _ n1 R2) (Hb' _) F2)
    as (y2 & -> & L2 & _ & Y2 & N2).
  destruct (band_outputs_fresh _ _ _ _ _ _ _ _ (Hle _ _ (n1 ++ n2) R3)
              (Hb' _) F3) as (y3 & -> & L3 & _ & Y3 & N3).
  assert (fullband_ready (DiscriminatorMultiScales.melgan_discriminator dis)
            (h ++ n1 ++ n2 ++ n3)) as R4'.
  { eapply fullband_ready_le; [|done]. rewrite length_app. lia. }
  destruct (fullband_outputs_fresh _ _ _ _ _ _ R4' (Ha' _) F4)
    as (y4 & -> & L4 & _ & Y4 & N4).
  cbn [fmap list_fmap head tail concat]. rewrite app_nil_r.
  rewrite !length_app in *. rewrite L1, L2, L3, L4.
  split; [done|]. split; [|split; [done|]].
  - apply (NoDup_app_ranges (length h + length n1)); [done| |
      eapply Forall_impl; [exact Y1|simpl; lia] |].
    + apply (NoDup_app_ranges (length h + (length n1 + length n2))); [done| |
        eapply Forall_impl; [exact Y2|simpl; lia] |].
      * apply (NoDup_app_ranges
                 (length h + (length n1 + (length n2 + length n3))));
          [done..| |]; (eapply Forall_impl; [done|simpl; lia]).
      * apply Forall_app; split; (eapply Forall_impl; [done|simpl; lia]).
    + repeat (apply Forall_app; split);
        (eapply Forall_impl; [done|simpl; lia]).
  - repeat (apply Forall_app; split);
      (eapply Forall_impl; [done|simpl; lia]).
Qed.

Lemma ensemble_forward_returns_distinct_objects_witness :
  ∃ dis bands audio h embs h',
    setup_ensemble 4 [2; 4; 1024] [2; 1; 4096] [] = Ok ((dis, bands, audio), h)
    ∧ DiscriminatorMultiScales.forward dis bands audio h = Ok (embs, h')
    ∧ head <$> embs = [Some bands; Some bands; Some bands; Some audio]
    ∧ NoDup (concat (tail <$> embs))
    ∧ length (concat (tail <$> embs)) = 31%nat
    ∧ Forall (λ y, (length h ≤ y < length h')%nat) (concat (tail <$> embs)).
Proof.
  assert (∃ dis bands audio h embs h',
            setup_ensemble 4 [2; 4; 1024] [2; 1; 4096] []
            = Ok ((dis, bands, audio), h)
            ∧ DiscriminatorMultiScales.forward dis bands audio h
              = Ok (embs, h'))
    as (dis & bands & audio & h & embs & h' & E & F)
    by (eexists _, _, _, _, _, _; split; vm_compute; reflexivity).
  destruct (setup_ensemble_ready _ _ _ _ _ _ _ _ E) as (Hready & Hb & Ha).
  exists dis, bands, audio, h, embs, h'.
  split; [exact E|]. split; [exact F|].
  exact (ensemble_forward_returns_distinct_objects 4 dis h bands audio _ _
           embs h' Hready Hb Ha F).
Defined.

(** ** Which returned tensors went through the activation *)

Lemma Layer_eval_activation h l x y :
  Layer_eval h l x = Ok y → activation_of y = Layer_activation l.
Proof.
  destruct l as [p|a ps|s i]; simpl.
  - unfold reflection_pad1d.
    destruct (reflection_pad1d_shape p (shape x)); simpl; [|done].
    by intros [= <-].
  - destruct (h !! weight_g ps), (h !! weight_v ps), (h !! bias ps); try done.
    unfold conv1d. destruct (conv1d_shape a (shape x)); simpl; [|done].
    by intros [= <-].
  - by intros [= <-].
Qed.

Lemma Sequential_eval_activation h ls : ∀ x y,
  Sequential_eval h ls x = Ok y →
  activation_of y
  = match last ls with Some l => Layer_activation l | None => activation_of x end.
Proof.
  induction ls as [|l ls IH]; intros x y; simpl.
  - by intros [= <-].
  - destruct (Layer_eval h l x) as [x'|] eqn:E; simpl; [|done].
    intros Hy. rewrite (IH _ _ Hy).
    destruct ls as [|l' ls]; [by apply Layer_eval_activation in E|].
    rewrite last_cons_cons.
    destruct (last (l' :: ls)) eqn:El; [done|]. by apply last_None in El.
Qed.

Lemma Module_eval_activation h m x y :
  Module_eval h m x = Ok y →
  activation_of y = Module_activation m (activation_of x).
Proof.
  destruct m as [ls|l]; unfold Module_activation; simpl.
  - apply Sequential_eval_activation.
  - apply Layer_eval_activation.
Qed.

Lemma Module_activation_erase m a :
  Module_activation (Module_erase m) a = Module_activation m a.
Proof.
  unfold Module_activation. destruct m as [ls|l]; simpl.
  - rewrite fmap_last. destruct (last ls) as [[]|]; done.
  - by destruct l.
Qed.

Lemma stack_eval_activations h ms : ∀ x ys,
  stack_eval h ms x = Ok ys →
  activation_of <$> ys
  = stack_activations (Module_erase <$> ms) (activation_of x).
Proof.
  induction ms as [|m ms IH]; intros x ys; simpl.
  - by intros [= <-].
  - destruct (Module_eval h m x) as [y|] eqn:E; simpl; [|done].
    destruct (stack_eval h ms y) as [ys'|] eqn:E'; simpl; [|done].
    intros [= <-]. simpl. rewrite Module_activation_erase.
    apply Module_eval_activation in E. rewrite <- E. f_equal. by apply IH.
Qed.

Lemma tensors_tail (h : heap) x ys t ts :
  tensors h (x :: ys) = Some <$> t :: ts → tensors h ys = Some <$> ts.
Proof. unfold tensors. rewrite !fmap_cons. by intros [= _ ?]. Qed.

(** X8.  Of the eight tensors a band discriminator creates, the first
    seven hold the output of the activation with slope 0.2 (the in-place
    activation overwrote the output of the convolution, which is not
    returned), and the last holds the output of a convolution, with no
    activation. *)
Theorem band_forward_activations :
  ∀ d q dis h bands tb embs h',
    band_ready d q dis h → h !! bands = Some tb →
    DiscriminatorEBEN.forward dis bands h = Ok (embs, h') →
    ∃ ts, tensors h' (tail embs) = Some <$> ts
          ∧ activation_of <$> ts = replicate 7 (Some 0.2%Q) ++ [None].
Proof.
  intros d q dis h bands tb embs h' Hready Hx Hfwd.
  pose proof (band_forward_spec d q dis h bands tb Hready Hx) as Hspec.
  rewrite Hfwd in Hspec.
  destruct Hspec as (n & l & new & ys & tys & _ & _ & _ & _ & _ & -> & _ & Hts
                       & Hev & _).
  destruct (band_ready_blocks _ _ _ _ Hready) as (_ & He & _).
  exists tys. split; [by eapply tensors_tail|].
  by rewrite (stack_eval_activations _ _ _ _ Hev), He.
Qed.

Lemma band_forward_activations_witness :
  ∃ dis bands h embs h',
    setup_band 3 4 [2; 4; 1024] [] = Ok ((dis, bands), h)
    ∧ DiscriminatorEBEN.forward dis bands h = Ok (embs, h')
    ∧ ∃ ts, tensors h' (tail embs) = Some <$> ts
            ∧ activation_of <$> ts = replicate 7 (Some 0.2%Q) ++ [None].
Proof.
  assert (∃ dis bands h embs h',
            setup_band 3 4 [2; 4; 1024] [] = Ok ((dis, bands), h)
            ∧ DiscriminatorEBEN.forward dis bands h = Ok (embs, h'))
    as (dis & bands & h & embs & h' & E & F)
    by (eexists _, _, _, _, _; split; vm_compute; reflexivity).
  destruct (setup_band_ready _ _ _ _ _ _ _ E) as (Hready & Hb).
  exists dis, bands, h, embs, h'.
  split; [exact E|]. split; [exact F|].
  exact (band_forward_activations 3 4 dis h bands _ embs h' Hready Hb F).
Defined.

(** X9.  Of the seven tensors the full-band discriminator creates, the
    first six hold the output of the activation with slope 0.2 and the last
    holds the output of a convolution, with no activation. *)
Theorem fullband_forward_activations :
  ∀ dis h audio ta embs h',
    fullband_ready dis h → h !! audio = Some ta →
    DiscriminatorMelGAN.forward dis audio h = Ok (embs, h') →
    ∃ ts, tensors h' (tail embs) = Some <$> ts
          ∧ activation_of <$> ts = replicate 6 (Some 0.2%Q) ++ [None].
Proof.
  intros dis h audio ta embs h' Hready Hx Hfwd.
  pose proof (fullband_forward_spec dis h audio ta Hready Hx) as Hspec.
  rewrite Hfwd in Hspec.
  destruct Hspec as (n & l & new & ys & tys & _ & _ & -> & _ & Hts & Hev & _).
  destruct (fullband_ready_blocks _ _ Hready) as (He & _).
  exists tys. split; [by eapply tensors_tail|].
  by rewrite (stack_eval_activations _ _ _ _ Hev), He.
Qed.

Lemma fullband_forward_activations_witness :
  ∃ dis audio h embs h',
    setup_fullband [2; 1; 4096] [] = Ok ((dis, audio), h)
    ∧ DiscriminatorMelGAN.forward dis audio h = Ok (embs, h')
    ∧ ∃ ts, tensors h' (tail embs) = Some <$> ts
            ∧ activation_of <$> ts = replicate 6 (Some 0.2%Q) ++ [None].
Proof.
  assert (∃ dis audio h embs h',
            setup_fullband [2; 1; 4096] [] = Ok ((dis, audio), h)
            ∧ DiscriminatorMelGAN.forward dis audio h = Ok (embs, h'))
    as (dis & audio & h & embs & h' & E & F)
    by (eexists _, _, _, _, _; split; vm_compute; reflexivity).
  destruct (setup_fullband_ready _ _ _ _ _ E) as (Hready & Ha).
  exists dis, audio, h, embs, h'.
  split; [exact E|]. split; [exact F|].
  exact (fullband_forward_activations dis h audio _ embs h' Hready Ha F).
Defined.

(** ** What the constructors create *)













(** ** What a forward pass depends on *)

Lemma Layer_eval_ext h k l x :
  Forall (λ p, h !! p = k !! p) (Layer_params l) →
  Layer_eval h l x = Layer_eval k l x.
Proof.
  destruct l as [p|a ps|s i]; simpl; try done.
  intros (Hv & (Hb & (Hg & _)%Forall_cons)%Forall_cons)%Forall_cons.
  by rewrite Hv, Hb, Hg.
Qed.

Lemma Sequential_eval_ext h k ls : ∀ x,
  Forall (λ p, h !! p = k !! p) (concat (Layer_params <$> ls)) →
  Sequential_eval h ls x = Sequential_eval k ls x.
Proof.
  induction ls as [|l ls IH]; intros x; simpl; [done|].
  intros [Hl Hls]%Forall_app. rewrite (Layer_eval_ext h k) by done.
  destruct (Layer_eval k l x); simpl; [by apply IH|done].
Qed.

Lemma Module_eval_ext h k m x :
  Forall (λ p, h !! p = k !! p) (Module_params m) →
  Module_eval h m x = Module_eval k m x.
Proof.
  destruct m; simpl; [apply Sequential_eval_ext | apply Layer_eval_ext].
Qed.

Lemma stack_eval_ext h k ms : ∀ x,
  Forall (λ p, h !! p = k !! p) (stack_params ms) →
  stack_eval h ms x = stack_eval k ms x.
Proof.
  unfold stack_params.
  induction ms as [|m ms IH]; intros x; simpl; [done|].
  intros [Hm Hms]%Forall_app. rewrite (Module_eval_ext h k) by done.
  destruct (Module_eval k m x); simpl; [by rewrite IH|done].
Qed.

(** X14.  What a band discriminator returns depends only on the tensor
    its input object holds and on the tensors its 24 parameter objects
    hold: in another store that agrees on the parameters, on another object
    that holds the same input tensor, the call succeeds as well and returns
    the same tensors. *)
Theorem band_forward_depends_on_input_and_parameters :
  ∀ d q dis h k x x' t embs h',
    band_ready d q dis h → band_ready d q dis k →
    Forall (λ p, h !! p = k !! p)
      (stack_params (DiscriminatorEBEN.discriminator dis)) →
    h !! x = Some t → k !! x' = Some t →
    DiscriminatorEBEN.forward dis x h = Ok (embs, h') →
    ∃ embs' k',
      DiscriminatorEBEN.forward dis x' k = Ok (embs', k')
      ∧ tensors k' embs' = tensors h' embs.
Proof.
  intros d q dis h k x x' t embs h' Rh Rk Hps Hx Hx' Hfwd.
  pose proof (band_forward_spec d q dis h x t Rh Hx) as Hh.
  rewrite Hfwd in Hh.
  destruct Hh as (n & l & new & ys & tys & Hs & ? & ? & ? & ? & _ & _ & Hts
                    & Hev & _).
  destruct (band_forward_total d q dis k x' t Rk Hx') as (embs' & k' & Hfwd').
  { exists n, l. by rewrite Hs. }
  exists embs', k'. split; [done|].
  pose proof (band_forward_spec d q dis k x' t Rk Hx') as Hk.
  rewrite Hfwd' in Hk.
  destruct Hk as (? & ? & ? & ? & tys' & _ & _ & _ & _ & _ & _ & _ & Hts'
                    & Hev' & _).
  rewrite (stack_eval_ext h k) in Hev by done. congruence.
Qed.

Lemma band_forward_depends_on_input_and_parameters_witness :
  ∃ dis x h t embs h',
    setup_band 2 4 [2; 4; 1024] [] = Ok ((dis, x), h)
    ∧ h !! x = Some t
    ∧ DiscriminatorEBEN.forward dis x h = Ok (embs, h')
    ∧ ∃ embs' k',
        DiscriminatorEBEN.forward dis (length h) (h ++ [t]) = Ok (embs', k')
        ∧ tensors k' embs' = tensors h' embs.
Proof.
  assert (∃ dis x h t embs h',
            setup_band 2 4 [2; 4; 1024] [] = Ok ((dis, x), h)
            ∧ h !! x = Some t
            ∧ Forall (λ p, h !! p = (h ++ [t]) !! p)
                (stack_params (DiscriminatorEBEN.discriminator dis))
            ∧ DiscriminatorEBEN.forward dis x h = Ok (embs, h'))
    as (dis & x & h & t & embs & h' & E & Hx & Hps & F).
  { eexists _, _, _, _, _, _.
    split; [vm_compute; reflexivity|]. split; [vm_compute; reflexivity|].
    split; [|vm_compute; reflexivity].
    vm_compute. repeat constructor. }
  destruct (setup_band_ready _ _ _ _ _ _ _ E) as (Hready & _).
  exists dis, x, h, t, embs, h'.
  split; [exact E|]. split; [exact Hx|]. split; [exact F|].
  refine (band_forward_depends_on_input_and_parameters 2 4 dis h (h ++ [t])
            x (length h) t embs h' Hready _ Hps Hx _ F).
  - apply (band_ready_le _ _ _ h); [|exact Hready]. rewrite length_app. lia.
  - apply lookup_alloc.
Defined.

(** X15.  The same for the full-band discriminator and its 21 parameter
    objects. *)
Theorem fullband_forward_depends_on_input_and_parameters :
  ∀ dis h k x x' t embs h',
    fullband_ready dis h → fullband_ready dis k →
    Forall (λ p, h !! p = k !! p)
      (stack_params (DiscriminatorMelGAN.discriminator dis)) →
    h !! x = Some t → k !! x' = Some t →
    DiscriminatorMelGAN.forward dis x h = Ok (embs, h') →
    ∃ embs' k',
      DiscriminatorMelGAN.forward dis x' k = Ok (embs', k')
      ∧ tensors k' embs' = tensors h' embs.
Proof.
  intros dis h k x x' t embs h' Rh Rk Hps Hx Hx' Hfwd.
  pose proof (fullband_forward_spec dis h x t Rh Hx) as Hh.
  rewrite Hfwd in Hh.
  destruct Hh as (n & l & new & ys & tys & Hs & ? & _ & _ & Hts & Hev & _).
  destruct (fullband_forward_total dis k x' t Rk Hx') as (embs' & k' & Hfwd').
  { exists n, l. by rewrite Hs. }
  exists embs', k'. split; [done|].
  pose proof (fullband_forward_spec dis k x' t Rk Hx') as Hk.
  rewrite Hfwd' in Hk.
  destruct Hk as (? & ? & ? & ? & tys' & _ & _ & _ & _ & Hts' & Hev' & _).
  rewrite (stack_eval_ext h k) in Hev by done. congruence.
Qed.

Lemma fullband_forward_depends_on_input_and_parameters_witness :
  ∃ dis x h t embs h',
    setup_fullband [2; 1; 4096] [] = Ok ((dis, x), h)
    ∧ h !! x = Some t
    ∧ DiscriminatorMelGAN.forward dis x h = Ok (embs, h')
    ∧ ∃ embs' k',
        DiscriminatorMelGAN.forward dis (length h) (h ++ [t]) = Ok (embs', k')
        ∧ tensors k' embs' = tensors h' embs.
Proof.
  assert (∃ dis x h t embs h',
            setup_fullband [2; 1; 4096] [] = Ok ((dis, x), h)
            ∧ h !! x = Some t
            ∧ Forall (λ p, h !! p = (h ++ [t]) !! p)
                (stack_params (DiscriminatorMelGAN.discriminator dis))
            ∧ DiscriminatorMelGAN.forward dis x h = Ok (embs, h'))
    as (dis & x & h & t & embs & h' & E & Hx & Hps & F).
  { eexists _, _, _, _, _, _.
    split; [vm_compute; reflexivity|]. split; [vm_compute; reflexivity|].
    split; [|vm_compute; reflexivity].
    vm_compute. repeat constructor. }
  destruct (setup_fullband_ready _ _ _ _ _ E) as (Hready & _).
  exists dis, x, h, t, embs, h'.
  split; [exact E|]. split; [exact Hx|]. split; [exact F|].
  refine (fullband_forward_depends_on_input_and_parameters dis h (h ++ [t])
            x (length h) t embs h' Hready _ Hps Hx _ F).
  - apply (fullband_ready_le _ h); [|exact Hready]. rewrite length_app. lia.
  - apply lookup_alloc.
Defined.

(** ** The temporal length after every block *)

(** X16.  Every tensor a band discriminator returns has the batch size of
    the input.  With [x = l + 4 * d - 2] for an input of temporal length
    [l], the output of the first block has length [x - 6 * (d - 1)], the
    output of the [k]-th strided block has length
    [ceil (x / 2^k) - 6 * (d - 1)], and the last two outputs have length
    [ceil (x / 32) - 10 * (d - 1)]; no returned tensor is empty. *)
Theorem band_forward_lengths :
  ∀ d q dis h bands tb embs h',
    band_ready d q dis h → h !! bands = Some tb →
    DiscriminatorEBEN.forward dis bands h = Ok (embs, h') →
    ∃ n l ls,
      shape tb = [n; q; l]
      ∧ Forall (λ s, s ≫= (λ s', s' !! 0%nat) = Some n) (shapes h' embs)
      ∧ lengths h' embs = Some <$> l :: ls
      ∧ ls = (let x := l + 4 * d - 2 in
              [ x - 6 * (d - 1);
                ceil_div x 2 - 6 * (d - 1);
                ceil_div x 4 - 6 * (d - 1);
                ceil_div x 8 - 6 * (d - 1);
                ceil_div x 16 - 6 * (d - 1);
                ceil_div x 32 - 6 * (d - 1);
                ceil_div x 32 - 10 * (d - 1);
                ceil_div x 32 - 10 * (d - 1) ])
      ∧ Forall (λ t, 1 ≤ t) (l :: ls).
Proof.
  intros d q dis h bands tb embs h' Hready Hx Hfwd.
  destruct (band_forward_Ok _ _ _ _ _ _ _ _ Hready Hx Hfwd)
    as (n & l & ys & new & Hs & (n' & l' & Hs' & Hq & Hd & Hl & Hl')
          & _ & _ & _ & _ & Hshapes).
  rewrite Hs in Hs'. injection Hs' as <- <-.
  remember (l + 4 - 2 * d) as l1 eqn:E1.
  remember ((l1 + 5 - 6 * d) / 2 + 1) as l2 eqn:E2.
  remember ((l2 + 5 - 6 * d) / 2 + 1) as l3 eqn:E3.
  remember ((l3 + 5 - 6 * d) / 2 + 1) as l4 eqn:E4.
  remember ((l4 + 5 - 6 * d) / 2 + 1) as l5 eqn:E5.
  remember ((l5 + 5 - 6 * d) / 2 + 1) as l6 eqn:E6.
  remember (l6 + 4 - 4 * d) as l7 eqn:E7.
  rewrite <- (band_shapes_intro d n l l1 l2 l3 l4 l5 l6 l7 l7
                E1 E2 E3 E4 E5 E6 E7 eq_refl) in Hshapes.
  set (x := l + 4 * d - 2).
  assert (l1 = x - 6 * (d - 1)) as H1 by (subst x; lia).
  assert (l2 = ceil_div x 2 - 6 * (d - 1)) as H2
    by (clear - E2 H1; subst x; arith).
  assert (l3 = ceil_div x 4 - 6 * (d - 1)) as H3
    by (clear - E3 H2; subst x; arith).
  assert (l4 = ceil_div x 8 - 6 * (d - 1)) as H4
    by (clear - E4 H3; subst x; arith).
  assert (l5 = ceil_div x 16 - 6 * (d - 1)) as H5
    by (clear - E5 H4; subst x; arith).
  assert (l6 = ceil_div x 32 - 6 * (d - 1)) as H6
    by (clear - E6 H5; subst x; arith).
  assert (l7 = ceil_div x 32 - 10 * (d - 1)) as H7 by lia.
  exists n, l, [l1; l2; l3; l4; l5; l6; l7; l7].
  split; [done|]. split; [|split; [|split]].
  - rewrite Hshapes. by repeat constructor.
  - apply lengths_shapes in Hshapes. by rewrite Hshapes.
  - cbv zeta. fold x. by rewrite <- H1, <- H2, <- H3, <- H4, <- H5, <- H6, <- H7.
  - assert (1 ≤ l7) by (clear - H7 Hd Hl Hl'; subst x; arith).
    assert (l7 ≤ l6) by lia.
    assert (l6 ≤ l5) by (clear - H5 H6 Hd Hl; subst x; arith).
    assert (l5 ≤ l4) by (clear - H4 H5 Hd Hl; subst x; arith).
    assert (l4 ≤ l3) by (clear - H3 H4 Hd Hl; subst x; arith).
    assert (l3 ≤ l2) by (clear - H2 H3 Hd Hl; subst x; arith).
    assert (l2 ≤ l1) by (clear - H1 H2 Hd Hl; subst x; arith).
    repeat (constructor; [lia|]). constructor.
Qed.

Lemma band_forward_lengths_witness :
  ∃ dis bands h tb embs h',
    setup_band 2 4 [2; 4; 1024] [] = Ok ((dis, bands), h)
    ∧ h !! bands = Some tb
    ∧ DiscriminatorEBEN.forward dis bands h = Ok (embs, h')
    ∧ ∃ n l ls,
        shape tb = [n; 4; l]
        ∧ Forall (λ s, s ≫= (λ s', s' !! 0%nat) = Some n) (shapes h' embs)
        ∧ lengths h' embs = Some <$> l :: ls
        ∧ ls = (let x := l + 4 * 2 - 2 in
                [ x - 6 * (2 - 1);
                  ceil_div x 2 - 6 * (2 - 1);
                  ceil_div x 4 - 6 * (2 - 1);
                  ceil_div x 8 - 6 * (2 - 1);
                  ceil_div x 16 - 6 * (2 - 1);
                  ceil_div x 32 - 6 * (2 - 1);
                  ceil_div x 32 - 10 * (2 - 1);
                  ceil_div x 32 - 10 * (2 - 1) ])
        ∧ Forall (λ t, 1 ≤ t) (l :: ls).
Proof.
  assert (∃ dis bands h embs h',
            setup_band 2 4 [2; 4; 1024] [] = Ok ((dis, bands), h)
            ∧ DiscriminatorEBEN.forward dis bands h = Ok (embs, h'))
    as (dis & bands & h & embs & h' & E & F)
    by (eexists _, _, _, _, _; split; vm_compute; reflexivity).
  destruct (setup_band_ready _ _ _ _ _ _ _ E) as (Hready & Hb).
  eexists dis, bands, h, _, embs, h'.
  split; [exact E|]. split; [exact Hb|]. split; [exact F|].
  exact (band_forward_lengths 2 4 dis h bands _ embs h' Hready Hb F).
Defined.

(** X17.  Every tensor the full-band discriminator returns has the batch
    size of the input.  On an input of temporal length [l] the first block
    keeps the length, the [k]-th strided block returns length
    [ceil (l / 4^k)], and the last two blocks keep the length
    [ceil (l / 256)]; no returned tensor is empty. *)
Theorem fullband_forward_lengths :
  ∀ dis h audio ta embs h',
    fullband_ready dis h → h !! audio = Some ta →
    DiscriminatorMelGAN.forward dis audio h = Ok (embs, h') →
    ∃ n l ls,
      shape ta = [n; 1; l]
      ∧ Forall (λ s, s ≫= (λ s', s' !! 0%nat) = Some n) (shapes h' embs)
      ∧ lengths h' embs = Some <$> l :: ls
      ∧ ls = [ l; ceil_div l 4; ceil_div l 16; ceil_div l 64; ceil_div l 256;
               ceil_div l 256; ceil_div l 256 ]
      ∧ Forall (λ t, 1 ≤ t) (l :: ls).
Proof.
  intros dis h audio ta embs h' Hready Hx Hfwd.
  destruct (fullband_forward_Ok _ _ _ _ _ _ Hready Hx Hfwd)
    as (n & l & ys & new & Hs & (n' & l' & Hs' & Hl) & _ & _ & _ & _ & Hshapes).
  rewrite Hs in Hs'. injection Hs' as <- <-.
  remember ((l - 1) / 4 + 1) as l2 eqn:E2.
  remember ((l2 - 1) / 4 + 1) as l3 eqn:E3.
  remember ((l3 - 1) / 4 + 1) as l4 eqn:E4.
  remember ((l4 - 1) / 4 + 1) as l5 eqn:E5.
  rewrite <- (fullband_shapes_intro n l l l2 l3 l4 l5 l5 l5
                eq_refl E2 E3 E4 E5 eq_refl eq_refl) in Hshapes.
  assert (l2 = ceil_div l 4) as H2 by (clear - E2; arith).
  assert (l3 = ceil_div l 16) as H3 by (clear - E3 H2; arith).
  assert (l4 = ceil_div l 64) as H4 by (clear - E4 H3; arith).
  assert (l5 = ceil_div l 256) as H5 by (clear - E5 H4; arith).
  exists n, l, [l; l2; l3; l4; l5; l5; l5].
  split; [done|]. split; [|split; [|split]].
  - rewrite Hshapes. by repeat constructor.
  - apply lengths_shapes in Hshapes. by rewrite Hshapes.
  - by rewrite <- H2, <- H3, <- H4, <- H5.
  - assert (1 ≤ l5) by (clear - H5 Hl; arith).
    assert (1 ≤ l4) by (clear - H4 Hl; arith).
    assert (1 ≤ l3) by (clear - H3 Hl; arith).
    assert (1 ≤ l2) by (clear - H2 Hl; arith).
    repeat (constructor; [lia|]). constructor.
Qed.

Lemma fullband_forward_lengths_witness :
  ∃ dis audio h ta embs h',
    setup_fullband [2; 1; 4096] [] = Ok ((dis, audio), h)
    ∧ h !! audio = Some ta
    ∧ DiscriminatorMelGAN.forward dis audio h = Ok (embs, h')
    ∧ ∃ n l ls,
        shape ta = [n; 1; l]
        ∧ Forall (λ s, s ≫= (λ s', s' !! 0%nat) = Some n) (shapes h' embs)
        ∧ lengths h' embs = Some <$> l :: ls
        ∧ ls = [ l; ceil_div l 4; ceil_div l 16; ceil_div l 64;
                 ceil_div l 256; ceil_div l 256; ceil_div l 256 ]
        ∧ Forall (λ t, 1 ≤ t) (l :: ls).
Proof.
  assert (∃ dis audio h embs h',
            setup_fullband [2; 1; 4096] [] = Ok ((dis, audio), h)
            ∧ DiscriminatorMelGAN.forward dis audio h = Ok (embs, h'))
    as (dis & audio & h & embs & h' & E & F)
    by (eexists _, _, _, _, _; split; vm_compute; reflexivity).
  destruct (setup_fullband_ready _ _ _ _ _ E) as (Hready & Ha).
  eexists dis, audio, h, _, embs, h'.
  split; [exact E|]. split; [exact Ha|]. split; [exact F|].
  exact (fullband_forward_lengths dis h audio _ embs h' Hready Ha F).
Defined.

(** ** The exceptions of a forward pass *)










(** ** The scores of the ensemble *)

Lemma band_final_shape d n l :
  last (band_shapes d n l)
  = Some [n; 1; ceil_div (l + 4 * d - 2) 32 - 10 * (d - 1)].
Proof.
  remember (l + 4 - 2 * d) as l1 eqn:E1.
  remember ((l1 + 5 - 6 * d) / 2 + 1) as l2 eqn:E2.
  remember ((l2 + 5 - 6 * d) / 2 + 1) as l3 eqn:E3.
  remember ((l3 + 5 - 6 * d) / 2 + 1) as l4 eqn:E4.
  remember ((l4 + 5 - 6 * d) / 2 + 1) as l5 eqn:E5.
  remember ((l5 + 5 - 6 * d) / 2 + 1) as l6 eqn:E6.
  remember (l6 + 4 - 4 * d) as l7 eqn:E7.
  rewrite <- (band_shapes_intro d n l l1 l2 l3 l4 l5 l6 l7 l7
                E1 E2 E3 E4 E5 E6 E7 eq_refl).
  cbn [last]. do 4 f_equal. arith.
Qed.

Lemma fullband_final_shape n l :
  last (fullband_shapes n l) = Some [n; 1; ceil_div l 256].
Proof.
  remember ((l - 1) / 4 + 1) as l2 eqn:E2.
  remember ((l2 - 1) / 4 + 1) as l3 eqn:E3.
  remember ((l3 - 1) / 4 + 1) as l4 eqn:E4.
  remember ((l4 - 1) / 4 + 1) as l5 eqn:E5.
  rewrite <- (fullband_shapes_intro n l l l2 l3 l4 l5 l5 l5
                eq_refl E2 E3 E4 E5 eq_refl eq_refl).
  cbn [last]. do 4 f_equal. arith.
Qed.

Lemma last_Some_cons {A} (x : A) (l : list A) (y : A) :
  last l = Some y → last (Some <$> x :: l) = Some (Some y).
Proof.
  intros [l' ->]%last_Some.
  rewrite app_comm_cons, fmap_app. apply last_snoc.
Qed.

(** X19.  The last tensor of each of the four sequences, the score of a
    discriminator, has one channel and the batch size of its input.  For
    bands of temporal length [lb] the three band scores have length
    [ceil ((lb + 2) / 32)], [ceil ((lb + 6) / 32) - 10] and
    [ceil ((lb + 10) / 32) - 20]; for audio of length [la] the full-band
    score has length [ceil (la / 256)]. *)
Theorem ensemble_score_shapes :
  ∀ q dis h bands audio tb ta embs h',
    ensemble_ready q dis h →
    h !! bands = Some tb → h !! audio = Some ta →
    DiscriminatorMultiScales.forward dis bands audio h = Ok (embs, h') →
    ∃ nb lb na la,
      shape tb = [nb; q; lb] ∧ shape ta = [na; 1; la]
      ∧ (λ e, last (shapes h' e)) <$> embs
        = [ Some (Some [nb; 1; ceil_div (lb + 2) 32]);
            Some (Some [nb; 1; ceil_div (lb + 6) 32 - 10]);
            Some (Some [nb; 1; ceil_div (lb + 10) 32 - 20]);
            Some (Some [na; 1; ceil_div la 256]) ].
Proof.
  intros q dis h bands audio tb ta embs h' Hready Hb Ha Hfwd.
  destruct (ensemble_forward_shapes _ _ _ _ _ _ _ _ _ Hready Hb Ha Hfwd)
    as (nb & lb & na & la & Hsb & Hsa & Hshapes).
  exists nb, lb, na, la. do 2 (split; [done|]).
  rewrite (list_fmap_compose (shapes h') last), Hshapes.
  unfold fmap at 1. cbn [list_fmap].
  rewrite !(last_Some_cons _ _ _ (band_final_shape _ _ _)),
    (last_Some_cons _ _ _ (fullband_final_shape _ _)).
  by replace (lb + 4 * 1 - 2) with (lb + 2) by lia;
     replace (lb + 4 * 2 - 2) with (lb + 6) by lia;
     replace (lb + 4 * 3 - 2) with (lb + 10) by lia;
     replace (ceil_div (lb + 2) 32 - 10 * (1 - 1))
       with (ceil_div (lb + 2) 32) by lia.
Qed.

Lemma ensemble_score_shapes_witness :
  ∃ dis bands audio h tb ta embs h',
    setup_ensemble 4 [2; 4; 1024] [2; 1; 4096] [] = Ok ((dis, bands, audio), h)
    ∧ h !! bands = Some tb ∧ h !! audio = Some ta
    ∧ DiscriminatorMultiScales.forward dis bands audio h = Ok (embs, h')
    ∧ ∃ nb lb na la,
        shape tb = [nb; 4; lb] ∧ shape ta = [na; 1; la]
        ∧ (λ e, last (shapes h' e)) <$> embs
          = [ Some (Some [nb; 1; ceil_div (lb + 2) 32]);
              Some (Some [nb; 1; ceil_div (lb + 6) 32 - 10]);
              Some (Some [nb; 1; ceil_div (lb + 10) 32 - 20]);
              Some (Some [na; 1; ceil_div la 256]) ].
Proof.
  assert (∃ dis bands audio h embs h',
            setup_ensemble 4 [2; 4; 1024] [2; 1; 4096] []
            = Ok ((dis, bands, audio), h)
            ∧ DiscriminatorMultiScales.forward dis bands audio h
              = Ok (embs, h'))
    as (dis & bands & audio & h & embs & h' & E & F)
    by (eexists _, _, _, _, _, _; split; vm_compute; reflexivity).
  destruct (setup_ensemble_ready _ _ _ _ _ _ _ _ E) as (Hready & Hb & Ha).
  eexists dis, bands, audio, h, _, _, embs, h'.
  split; [exact E|]. split; [exact Hb|]. split; [exact Ha|].
  split; [exact F|].
  exact (ensemble_score_shapes 4 dis h bands audio _ _ embs h'
           Hready Hb Ha F).
Defined.
